(** * json-preprocessor: the CloudFormation reference resolver

    A shallow embedding of [json_preprocessor/cli.py] and
    [json_preprocessor/main.py], and the properties of the stack resource
    resolver, its process-wide index cache and the [cfn://] URI parser.

    Python values are modelled as follows.
    - [str] is [string]; a [dict] with string keys that is iterated
      (the per-stack index) is an insertion-ordered association list
      ([dict]); the module-level cache [STACK_LOOKUP], which is only
      looked up and extended, is a [gmap].
    - A call either returns or raises: [outcome].  Module globals and the
      log of remote calls are threaded by the monad [M]; an exception
      leaves every mutation made before it in place, as in Python.
    - The standard-library functions the module imports ([fnmatch.fnmatch],
      [json.loads], [urllib.parse.urldefrag], [urllib.parse.urlsplit]) and
      the boto3 CloudFormation client are fields of a [runtime]; the
      resolver is defined over an arbitrary runtime, and [Posix] gives
      executable reference versions of the library functions. *)

From Stdlib Require Import Ascii String.
From stdpp Require Import base option list strings gmap pretty.

(** ** Exceptions and results *)

(** The exception classes that occur; [PyException msg] is a bare
    [Exception(msg)], the only class the module raises itself. *)
Inductive exn : Type :=
| PyException (msg : string)
| ValueError (msg : string)
| KeyError (key : string)
| NameError (name : string)
| AttributeError (attr : string)
| JSONDecodeError (msg : string)
| ClientError (msg : string).

Inductive outcome (A : Type) : Type :=
| Ok (a : A)
| Raise (e : exn).
Arguments Ok {A} a.
Arguments Raise {A} e.

Definition is_ok {A} (r : outcome A) : bool :=
  match r with Ok _ => true | Raise _ => false end.

Definition outcome_bind {A B} (r : outcome A) (f : A → outcome B) : outcome B :=
  match r with Ok a => f a | Raise e => Raise e end.

(** What a resolver hands back to the engine: one physical id, or a list. *)
Inductive value : Type :=
| Scalar (s : string)
| Sequence (l : list string).

(** ** Strings *)

Module Str.

(** [c in s] for a one-character [c]. *)
Fixpoint contains (c : ascii) (s : string) : bool :=
  match s with
  | EmptyString => false
  | String a s' => Ascii.eqb a c || contains c s'
  end.

Definition of_list (l : list ascii) : string := string_of_list_ascii l.
Definition to_list (s : string) : list ascii := list_ascii_of_string s.

(** [s.split(sep)] for a one-character separator: never empty. *)
Fixpoint split_list (sep : ascii) (cur : list ascii) (l : list ascii)
  : list string :=
  match l with
  | [] => [of_list (rev cur)]
  | a :: l' =>
      if Ascii.eqb a sep then of_list (rev cur) :: split_list sep [] l'
      else split_list sep (a :: cur) l'
  end.

Definition split (sep : ascii) (s : string) : list string :=
  split_list sep [] (to_list s).

Fixpoint lstrip_list (c : ascii) (l : list ascii) : list ascii :=
  match l with
  | a :: l' => if Ascii.eqb a c then lstrip_list c l' else l
  | [] => []
  end.

(** [s.strip(c)] for a one-character [c]. *)
Definition strip (c : ascii) (s : string) : string :=
  of_list (rev (lstrip_list c (rev (lstrip_list c (to_list s))))).

(** [sep.join(pieces)] for a one-character [sep]. *)
Fixpoint join (sep : ascii) (pieces : list string) : string :=
  match pieces with
  | [] => EmptyString
  | [piece] => piece
  | piece :: pieces' => piece +:+ String sep (join sep pieces')
  end.

(** [s.count(c)] for a one-character [c]. *)
Fixpoint count (c : ascii) (s : string) : nat :=
  match s with
  | EmptyString => 0
  | String a s' => (if Ascii.eqb a c then 1 else 0) + count c s'
  end.

End Str.

(** ** Insertion-ordered dictionaries *)

(** A Python [dict] from [str] to [str].  Iteration yields the keys in the
    order of their first insertion; assigning to a key that is present
    replaces the value in place. *)
Abbreviation dict := (list (string * string)).

Fixpoint dict_get (d : dict) (k : string) : option string :=
  match d with
  | [] => None
  | (k', v) :: d' => if String.eqb k' k then Some v else dict_get d' k
  end.

(** [k in d] *)
Definition dict_contains (d : dict) (k : string) : bool :=
  match dict_get d k with Some _ => true | None => false end.

(** [d[k]] *)
Definition dict_getitem (d : dict) (k : string) : outcome string :=
  match dict_get d k with Some v => Ok v | None => Raise (KeyError k) end.

(** [d[k] = v] *)
Fixpoint dict_set (d : dict) (k v : string) : dict :=
  match d with
  | [] => [(k, v)]
  | (k', v') :: d' =>
      if String.eqb k' k then (k', v) :: d' else (k', v') :: dict_set d' k v
  end.

(** [for k in d] *)
Definition dict_keys (d : dict) : list string := map fst d.

(** ** The remote stack-description service *)

Record StackResourceSummary : Type :=
  { LogicalResourceId : string }.

(** [PhysicalResourceId] and [Metadata] are optional members of the
    service's answer; [Metadata] is JSON text. *)
Record StackResourceDetail : Type :=
  { PhysicalResourceId : option string;
    Metadata : option string }.

Record list_stack_resources_page : Type :=
  { StackResourceSummaries : list StackResourceSummary }.

Record describe_stack_resource_response : Type :=
  { StackResourceDetail_ : StackResourceDetail }.

(** The CloudFormation service as seen through boto3, per region.  The
    paginator of [list_stack_resources] yields the listed pages one remote
    call at a time; any call may raise. *)
Record cloudformation : Type :=
  { list_stack_resources :
      string → string → list (outcome list_stack_resources_page);
    describe_stack_resource :
      string → string → string → outcome describe_stack_resource_response }.

(** A boto3 client: the service bound to the region it was created for. *)
Record client : Type :=
  { region_name : string;
    service : cloudformation }.

(** One remote call, as a call-counting stub of the service would log it. *)
Inductive call : Type :=
| ListStackResources (region StackName : string) (page : nat)
| DescribeStackResource (region StackName LogicalId : string).

(** [urllib.parse.SplitResult] *)
Record SplitResult : Type :=
  { scheme : string;
    netloc : string;
    path : string;
    query : string;
    fragment : string }.

(** What the module imports from outside the package.  [fnmatch] is total
    on strings.  [json_loads] is [json.loads] on metadata texts: it raises
    on text that is not JSON and otherwise yields the members of the
    decoded object, whose values (the structural path among them) are
    strings.  The two [urllib.parse] functions raise [ValueError] on the
    strings they reject. *)
Record runtime : Type :=
  { fnmatch : string → string → bool;
    json_loads : string → outcome dict;
    urldefrag : string → outcome (string * string);
    urlsplit : string → outcome SplitResult;
    aws : cloudformation }.

(** [boto3.client('cloudformation', region_name=...)] *)
Definition boto3_client (rt : runtime) (region : string) : client :=
  {| region_name := region; service := aws rt |}.

(** ** Module state and the effect monad *)

(** The globals of [cli.py] that the resolver reads or writes, with the
    log of the remote calls made so far. *)
Record state : Type :=
  { REGION : string;
    STACK_LOOKUP : gmap string dict;
    calls : list call }.

Definition M (A : Type) : Type := state → outcome A * state.

Definition ret {A} (a : A) : M A := λ s, (Ok a, s).
Definition raise {A} (e : exn) : M A := λ s, (Raise e, s).
Definition bind {A B} (f : A → M B) (m : M A) : M B :=
  λ s, match m s with
       | (Ok a, s') => f a s'
       | (Raise e, s') => (Raise e, s')
       end.

(** [x ← m; k] sequences two statements; an exception in [m] skips [k]. *)
#[export] Instance M_ret : MRet M := @ret.
#[export] Instance M_bind : MBind M := @bind.
#[export] Instance outcome_ret : MRet outcome := @Ok.
#[export] Instance outcome_bind' : MBind outcome :=
  λ A B f r, outcome_bind r f.

(** Lift a pure outcome. *)
Definition lift {A} (r : outcome A) : M A := λ s, (r, s).

(** Perform one remote call whose outcome is [r]. *)
Definition remote {A} (c : call) (r : outcome A) : M A :=
  λ s, (r, {| REGION := REGION s; STACK_LOOKUP := STACK_LOOKUP s;
              calls := calls s ++ [c] |}).

Definition get_REGION : M string := λ s, (Ok (REGION s), s).
Definition get_STACK_LOOKUP : M (gmap string dict) :=
  λ s, (Ok (STACK_LOOKUP s), s).
Definition set_STACK_LOOKUP (k : string) (d : dict) : M unit :=
  λ s, (Ok tt, {| REGION := REGION s;
                  STACK_LOOKUP := <[k := d]> (STACK_LOOKUP s);
                  calls := calls s |}).

(** [for x in l: acc = body(acc, x)] *)
Fixpoint for_each {A S} (l : list A) (body : S → A → M S) (acc : S) : M S :=
  match l with
  | [] => mret acc
  | x :: l' => acc' ← body acc x; for_each l' body acc'
  end.

(** ** The command line: documents, files and output *)

(** [dict(items)] for an iterable of lists: every item has to have two
    elements, a key and a value; the first one that has not stops the
    construction. *)
Fixpoint dict_update (i : nat) (d : dict) (items : list (list string))
  : outcome dict :=
  match items with
  | [] => Ok d
  | [k; v] :: items' => dict_update (S i) (dict_set d k v) items'
  | item :: _ =>
      Raise (ValueError
               ("dictionary update sequence element #" +:+ pretty i
                +:+ " has length " +:+ pretty (length item)
                +:+ "; 2 is required"))
  end.

Definition dict_of_pairs (items : list (list string)) : outcome dict :=
  dict_update 0 [] items.

(** What the entry points use besides the resolver: the decoded documents
    with [json.load] (applied to the text of an open file) and
    [json.dumps], the function [resolve] of the package's resolution
    module, which is given the document, the parameters and the handlers
    by scheme, and the files: reading one, opening one for writing, and
    writing to it. *)
Record host : Type :=
  { json : Type;
    json_load : string → outcome json;
    json_dumps : json → option nat → outcome string;
    resolve : json → dict → list (string * (string → M value)) → M json;
    files : Type;
    read_file : string → files → outcome string;
    open_w : string → files → outcome unit * files;
    write : string → string → files → outcome unit * files }.

(** The state of a run of the command: the module globals, what was
    printed, and the files. *)
Record process (h : host) : Type :=
  { module_state : state;
    stdout : list string;
    disk : files h }.
Arguments module_state {h} p.
Arguments stdout {h} p.
Arguments disk {h} p.

Definition IO (h : host) (A : Type) : Type :=
  process h → outcome A * process h.

#[export] Instance IO_ret h : MRet (IO h) := λ A a p, (Ok a, p).
#[export] Instance IO_bind h : MBind (IO h) :=
  λ A B f m p, match m p with
               | (Ok a, p') => f a p'
               | (Raise e, p') => (Raise e, p')
               end.

Section io.
Context {h : host}.

Definition io_lift {A} (r : outcome A) : IO h A := λ p, (r, p).

(** Run resolver code on the module globals. *)
Definition in_module {A} (m : M A) : IO h A :=
  λ p, let '(r, s) := m (module_state p) in
       (r, {| module_state := s; stdout := stdout p; disk := disk p |}).

(** [print(line)] *)
Definition print (line : string) : IO h unit :=
  λ p, (Ok tt, {| module_state := module_state p;
                  stdout := stdout p ++ [line]; disk := disk p |}).

Definition on_disk (f : files h → outcome unit * files h) : IO h unit :=
  λ p, let '(r, d) := f (disk p) in
       (r, {| module_state := module_state p; stdout := stdout p;
              disk := d |}).

(** [open(path)], read *)
Definition open_r (path : string) : IO h string :=
  λ p, (read_file h path (disk p), p).

End io.

(** ** cli.py *)

Module cli.

(** Lines 9-15: what importing the module does to its globals, given the
    process environment. *)
Definition load (environ : gmap string string) : outcome state :=
  match environ !! "AWS_REGION" with
  | None => Raise (PyException "AWS_REGION not set")
  | Some region =>
      Ok {| REGION := region; STACK_LOOKUP := ∅; calls := [] |}
  end.

Definition has_wildcards (path : string) : bool :=
  Str.contains "*"%char path || Str.contains "?"%char path
  || Str.contains "["%char path.

Section resolver.
Context (rt : runtime).

(** [paginator.paginate(StackName=stack_name)]: iterating fetches page
    [k] with the [k]-th remote call. *)
Definition paginate (c : client) (StackName : string)
  : list (M list_stack_resources_page) :=
  imap (λ k r, remote (ListStackResources (region_name c) StackName k) r)
       (list_stack_resources (service c) (region_name c) StackName).

(** [client.describe_stack_resource(StackName=..., LogicalResourceId=...)] *)
Definition describe (c : client) (StackName LogicalId : string)
  : M describe_stack_resource_response :=
  remote (DescribeStackResource (region_name c) StackName LogicalId)
         (describe_stack_resource (service c) (region_name c)
                                  StackName LogicalId).

(** Lines 29-31: one iteration of the outer loop over the pages. *)
Definition collect_ids (ids : list string)
    (page : M list_stack_resources_page) : M (list string) :=
  res ← page;
  mret (foldl (λ ids res2, ids ++ [LogicalResourceId res2])
              ids (StackResourceSummaries res)).

(** Lines 35-43: one iteration of the loop over [ids].  The loop works
    on the locals [stack] and [path]; [path] is also the function's
    second parameter, which line 42 assigns to. *)
Definition index_resource (c : client) (stack_name : string)
    (locals : dict * string) (idn : string) : M (dict * string) :=
  let '(stack, path) := locals in
  response ← describe c stack_name idn;
  let response := StackResourceDetail_ response in
  physicalId ← lift (match PhysicalResourceId response with
                     | Some p => Ok p
                     | None => Raise (KeyError "PhysicalResourceId")
                     end);
  match Metadata response with
  | Some text =>
      response ← lift (json_loads rt text);
      if dict_contains response "aws:cdk:path" then
        path ← lift (dict_getitem response "aws:cdk:path");
        mret (dict_set stack path physicalId, path)
      else mret (stack, path)
  | None => mret (stack, path)
  end.

(** Lines 23-47: the body of [if stack_name not in STACK_LOOKUP];
    returns the local [path] as the loop left it. *)
Definition build (stack_name path : string) : M string :=
  region ← get_REGION;
  let client := boto3_client rt region in
  ids ← for_each (paginate client stack_name) collect_ids [];
  '(stack, path) ← for_each ids (index_resource client stack_name)
                            ([], path);
  set_STACK_LOOKUP stack_name stack;;
  mret path.

(** Lines 53-56: one iteration of the loop over the index. *)
Definition collect_match (stack : dict) (path : string)
    (result : list string) (candidate : string) : outcome (list string) :=
  if fnmatch rt candidate path then
    v ← dict_getitem stack candidate;
    mret (result ++ [v])
  else mret result.

Fixpoint for_each_pure {A S} (l : list A) (body : S → A → outcome S)
    (acc : S) : outcome S :=
  match l with
  | [] => Ok acc
  | x :: l' => acc' ← body acc x; for_each_pure l' body acc'
  end.

(** Lines 51-65. *)
Definition lookup (stack_name : string) (stack : dict) (path : string)
  : outcome value :=
  if has_wildcards path then
    result ← for_each_pure (dict_keys stack) (collect_match stack path) [];
    if (length result =? 0)%nat then
      Raise (PyException
               ("pattern " +:+ path +:+ " not found in stack " +:+ stack_name))
    else Ok (Sequence result)
  else
    if dict_contains stack path then
      v ← dict_getitem stack path;
      mret (Scalar v)
    else
      Raise (PyException
               ("path " +:+ path +:+ " not found in stack " +:+ stack_name)).

Definition retrieve_attribute (stack_name path : string) : M value :=
  cache ← get_STACK_LOOKUP;
  path ← match cache !! stack_name with
         | Some _ => mret path
         | None => build stack_name path
         end;
  cache ← get_STACK_LOOKUP;
  stack ← lift (match cache !! stack_name with
                | Some stack => Ok stack
                | None => Raise (KeyError stack_name)
                end);
  lift (lookup stack_name stack path).

(** Lines 67-86. *)
Definition parse_cfn_uri (uri : string) : outcome (string * string) :=
  '(base_uri, frag) ← urldefrag rt uri;
  base_uri_parts ← urlsplit rt base_uri;
  let scheme := scheme base_uri_parts in
  if negb (String.eqb scheme "cfn") then
    Raise (PyException ("Scheme '" +:+ scheme +:+ "' not supported."))
  else
    Ok (netloc base_uri_parts,
        netloc base_uri_parts +:+ path base_uri_parts).

(** Lines 88-98. *)
Definition handle_cfn_uri (uri : string) : M value :=
  '(stack_name, path) ← lift (parse_cfn_uri uri);
  retrieve_attribute stack_name path.

End resolver.

Section entry.
Context (rt : runtime) (h : host).

(** Lines 101-111. *)
Definition resolve_template_with_cfn_support (template_data : json h)
    (params : dict) : M (json h) :=
  resolve h template_data params [("cfn", handle_cfn_uri rt)].

(** Lines 147-162. *)
Definition run (minify : bool) (output_file : option string)
    (parameter : list string) (path_to_document : string) : IO h unit :=
  param_dict ← io_lift (dict_of_pairs (map (Str.split "=") parameter));
  let indent := if minify then None else Some 4 in
  data ← open_r path_to_document;
  template ← io_lift (json_load h data);
  resolved_tree ←
    in_module (resolve_template_with_cfn_support template param_dict);
  resolved ← io_lift (json_dumps h resolved_tree indent);
  match output_file with
  | None => print resolved
  | Some output_file =>
      on_disk (open_w h output_file);;
      on_disk (write h output_file resolved)
  end.

End entry.

End cli.

(** ** Reference versions of the imported library functions *)

(** Executable models of the CPython functions on a POSIX host, for
    strings of ASCII characters.  The theorems about the resolver hold for
    every [runtime]; these versions give the examples their values. *)
Module Posix.

Definition code (c : ascii) : nat := nat_of_ascii c.

(** *** fnmatch.fnmatch

    [os.path.normcase] is the identity on POSIX, so [fnmatch] is
    [fnmatchcase]: the pattern is translated ([fnmatch.translate]) and
    must match the whole name.  [*] matches any run of characters, [?]
    any one character, [[seq]] one character of [seq], [[!seq]] one
    character not in it; a [[] that is never closed stands for itself. *)

Inductive item : Type :=
| One (c : ascii)
| Range (lo hi : ascii).

Inductive token : Type :=
| Star
| AnyChar
| Lit (c : ascii)
| CharSet (negated : bool) (items : list item).

(** The text up to the first ["]"], and what follows it. *)
Fixpoint find_close (l : list ascii) : option (list ascii * list ascii) :=
  match l with
  | [] => None
  | c :: l' =>
      if Ascii.eqb c "]" then Some ([], l')
      else match find_close l' with
           | Some (stuff, rest) => Some (c :: stuff, rest)
           | None => None
           end
  end.

Definition keep (c : ascii) (r : option (list ascii * list ascii))
  : option (list ascii * list ascii) :=
  match r with
  | Some (stuff, rest) => Some (c :: stuff, rest)
  | None => None
  end.

(** The body of a bracket expression, given the text after ["["]: a
    leading ["!"] and a ["]"] right after it (or right at the start) do
    not close the expression. *)
Definition bracket_body (l : list ascii)
  : option (list ascii * list ascii) :=
  match l with
  | c :: l1 =>
      if Ascii.eqb c "!" then
        match l1 with
        | d :: l2 =>
            if Ascii.eqb d "]" then keep c (keep d (find_close l2))
            else keep c (find_close l1)
        | [] => None
        end
      else if Ascii.eqb c "]" then keep c (find_close l1)
      else find_close l
  | [] => None
  end.

(** A hyphen between two characters makes a range; the character that
    ends a range does not start another. *)
Fixpoint items_of (stuff : list ascii) : list item :=
  match stuff with
  | [] => []
  | a :: rest =>
      match rest with
      | h :: b :: rest' =>
          if Ascii.eqb h "-" then Range a b :: items_of rest'
          else One a :: items_of rest
      | _ => One a :: items_of rest
      end
  end.

Definition char_set (stuff : list ascii) : token :=
  match stuff with
  | c :: stuff' =>
      if Ascii.eqb c "!" then CharSet true (items_of stuff')
      else CharSet false (items_of stuff)
  | [] => CharSet false []
  end.

(** [fnmatch.translate]; [skip] counts the characters of a bracket
    expression still to be passed over. *)
Fixpoint translate_from (skip : nat) (pat : list ascii) : list token :=
  match pat with
  | [] => []
  | c :: pat' =>
      match skip with
      | S n => translate_from n pat'
      | O =>
          if Ascii.eqb c "*" then Star :: translate_from 0 pat'
          else if Ascii.eqb c "?" then AnyChar :: translate_from 0 pat'
          else if Ascii.eqb c "[" then
            match bracket_body pat' with
            | Some (stuff, _) =>
                char_set stuff :: translate_from (S (length stuff)) pat'
            | None => Lit c :: translate_from 0 pat'
            end
          else Lit c :: translate_from 0 pat'
      end
  end.

Definition translate (pat : string) : list token :=
  translate_from 0 (Str.to_list pat).

Definition in_item (c : ascii) (i : item) : bool :=
  match i with
  | One a => Ascii.eqb a c
  | Range lo hi => (code lo <=? code c)%nat && (code c <=? code hi)%nat
  end.

Definition in_set (negated : bool) (items : list item) (c : ascii) : bool :=
  xorb negated (existsb (in_item c) items).

Fixpoint match_tokens (ts : list token) (name : list ascii) : bool :=
  match ts with
  | [] => match name with [] => true | _ => false end
  | Star :: ts' =>
      (fix star (name : list ascii) : bool :=
         match_tokens ts' name
         || match name with
            | [] => false
            | _ :: name' => star name'
            end) name
  | AnyChar :: ts' =>
      match name with
      | _ :: name' => match_tokens ts' name'
      | [] => false
      end
  | Lit c :: ts' =>
      match name with
      | a :: name' => Ascii.eqb a c && match_tokens ts' name'
      | [] => false
      end
  | CharSet negated items :: ts' =>
      match name with
      | a :: name' => in_set negated items a && match_tokens ts' name'
      | [] => false
      end
  end.

Definition fnmatch (name pat : string) : bool :=
  match_tokens (translate pat) (Str.to_list name).

(** *** urllib.parse.urlsplit, urldefrag

    After CPython's [urllib/parse.py]: leading control characters and
    spaces are stripped, tabs and line breaks removed, the scheme is
    lower-cased, and an authority with one bracket but not the other is
    rejected.  The check of the address between two brackets is left out. *)

Definition between (lo hi : nat) (c : ascii) : bool :=
  (lo <=? code c)%nat && (code c <=? hi)%nat.

Definition is_alpha (c : ascii) : bool := between 65 90 c || between 97 122 c.
Definition is_digit (c : ascii) : bool := between 48 57 c.

(** [scheme_chars] *)
Definition scheme_char (c : ascii) : bool :=
  is_alpha c || is_digit c || Ascii.eqb c "+" || Ascii.eqb c "-"
  || Ascii.eqb c ".".

Definition lower (c : ascii) : ascii :=
  if between 65 90 c then ascii_of_nat (code c + 32) else c.

(** [url.lstrip(_WHATWG_C0_CONTROL_OR_SPACE)] *)
Fixpoint lstrip_c0 (l : list ascii) : list ascii :=
  match l with
  | c :: l' => if (code c <=? 32)%nat then lstrip_c0 l' else l
  | [] => []
  end.

(** Tab, line feed and carriage return are removed wherever they are. *)
Definition unsafe (c : ascii) : bool :=
  (code c =? 9)%nat || (code c =? 10)%nat || (code c =? 13)%nat.

Definition mem (c : ascii) (l : list ascii) : bool :=
  existsb (Ascii.eqb c) l.

(** [l.split(c, 1)] when [c] occurs in [l]. *)
Fixpoint split_first (c : ascii) (l : list ascii)
  : option (list ascii * list ascii) :=
  match l with
  | [] => None
  | a :: l' =>
      if Ascii.eqb a c then Some ([], l')
      else match split_first c l' with
           | Some (pre, post) => Some (a :: pre, post)
           | None => None
           end
  end.

Definition split_scheme (url : list ascii) : list ascii * list ascii :=
  match split_first ":" url with
  | Some (c0 :: pre, post) =>
      if is_alpha c0 && forallb scheme_char (c0 :: pre)
      then (map lower (c0 :: pre), post)
      else ([], url)
  | _ => ([], url)
  end.

(** [_splitnetloc]: the authority ends at the first of [/], [?], [#]. *)
Fixpoint splitnetloc (l : list ascii) : list ascii * list ascii :=
  match l with
  | [] => ([], [])
  | c :: l' =>
      if Ascii.eqb c "/" || Ascii.eqb c "?" || Ascii.eqb c "#" then ([], l)
      else let '(domain, rest) := splitnetloc l' in (c :: domain, rest)
  end.

Definition split_authority (url : list ascii)
  : outcome (list ascii * list ascii) :=
  match url with
  | c1 :: c2 :: url' =>
      if Ascii.eqb c1 "/" && Ascii.eqb c2 "/" then
        let '(netloc, rest) := splitnetloc url' in
        if xorb (mem "[" netloc) (mem "]" netloc)
        then Raise (ValueError "Invalid IPv6 URL")
        else Ok (netloc, rest)
      else Ok ([], url)
  | _ => Ok ([], url)
  end.

Definition split_opt (c : ascii) (l : list ascii) : list ascii * list ascii :=
  match split_first c l with
  | Some (pre, post) => (pre, post)
  | None => (l, [])
  end.

Definition urlsplit_list (url : list ascii)
  : outcome (list ascii * list ascii * list ascii * list ascii * list ascii) :=
  let url := filter (λ c, negb (unsafe c)) (lstrip_c0 url) in
  let '(scheme, url) := split_scheme url in
  '(netloc, url) ← split_authority url;
  let '(url, fragment) := split_opt "#" url in
  let '(url, query) := split_opt "?" url in
  Ok (scheme, netloc, url, query, fragment).

Definition urlsplit (url : string) : outcome SplitResult :=
  '(scheme, netloc, url, query, fragment) ← urlsplit_list (Str.to_list url);
  Ok {| scheme := Str.of_list scheme; netloc := Str.of_list netloc;
        path := Str.of_list url; query := Str.of_list query;
        fragment := Str.of_list fragment |}.

Definition uses_params : list string :=
  [""; "ftp"; "hdl"; "prospero"; "http"; "imap"; "https"; "shttp"; "rtsp";
   "rtspu"; "sip"; "sips"; "mms"; "sftp"; "tel"].

Definition uses_netloc : list string :=
  [""; "ftp"; "http"; "gopher"; "nntp"; "telnet"; "imap"; "wais"; "file";
   "mms"; "https"; "shttp"; "snews"; "prospero"; "rtsp"; "rtspu"; "rsync";
   "svn"; "svn+ssh"; "sftp"; "nfs"; "git"; "git+ssh"; "ws"; "wss"].

Definition mem_str (s : string) (l : list string) : bool :=
  existsb (String.eqb s) l.

(** [_splitparams]: the parameters follow the first [;] of the last path
    segment. *)
Definition splitparams (url : list ascii) : list ascii * list ascii :=
  match split_first "/" (rev url) with
  | Some (seg, dirs) =>
      match split_first ";" ("/"%char :: rev seg) with
      | Some (pre, params) => (rev dirs ++ pre, params)
      | None => (url, [])
      end
  | None => split_opt ";" url
  end.

Definition is_empty (l : list ascii) : bool :=
  match l with [] => true | _ => false end.

Definition starts_slash (l : list ascii) : bool :=
  match l with c :: _ => Ascii.eqb c "/" | [] => false end.

Definition starts_2slash (l : list ascii) : bool :=
  match l with c :: l' => Ascii.eqb c "/" && starts_slash l' | [] => false end.

(** [urlunsplit((scheme, netloc, url, query, ''))] *)
Definition urlunsplit (scheme netloc url query : list ascii) : list ascii :=
  let url :=
    if negb (is_empty netloc)
       || (negb (is_empty scheme) && mem_str (Str.of_list scheme) uses_netloc
           && negb (starts_2slash url))
    then
      let url := if negb (is_empty url) && negb (starts_slash url)
                 then "/"%char :: url else url in
      "/"%char :: "/"%char :: netloc ++ url
    else url in
  let url := if negb (is_empty scheme) then scheme ++ ":"%char :: url
             else url in
  if negb (is_empty query) then url ++ "?"%char :: query else url.

(** [urldefrag]: a URL without [#] is returned as it is; otherwise it is
    parsed ([urlparse]) and put together again without the fragment
    ([urlunparse]). *)
Definition urldefrag (url : string) : outcome (string * string) :=
  if Str.contains "#" url then
    '(s, n, p, q, frag) ← urlsplit_list (Str.to_list url);
    let '(p, a) := if mem_str (Str.of_list s) uses_params && mem ";" p
                   then splitparams p else (p, []) in
    let p := if negb (is_empty a) then p ++ ";"%char :: a else p in
    Ok (Str.of_list (urlunsplit s n p q), Str.of_list frag)
  else Ok (url, "").

(** *** json.loads

    The decoder restricted to what CloudFormation metadata of CDK
    resources is: one JSON object whose member values are strings
    without escapes.  Other texts are reported as undecodable. *)

Inductive json_state : Type :=
| Start
| Open
| InKey (key : list ascii)
| AfterKey (key : string)
| AfterColon (key : string)
| InValue (key : string) (val : list ascii)
| AfterValue
| AfterComma
| Closed.

Definition dquote : ascii := ascii_of_nat 34.

(** The JSON string literal for a text without escapes. *)
Definition quoted (s : string) : string :=
  String dquote (s +:+ String dquote EmptyString).

Definition is_ws (c : ascii) : bool :=
  Ascii.eqb c " " || unsafe c.

Definition plain (c : ascii) : bool :=
  (32 <=? code c)%nat && negb (Ascii.eqb c dquote) && negb (Ascii.eqb c "\").

Definition json_step (st : json_state * dict) (c : ascii)
  : option (json_state * dict) :=
  let '(q, d) := st in
  let quote := Ascii.eqb c dquote in
  match q with
  | Start =>
      if is_ws c then Some (Start, d)
      else if Ascii.eqb c "{" then Some (Open, d) else None
  | Open =>
      if is_ws c then Some (Open, d)
      else if quote then Some (InKey [], d)
      else if Ascii.eqb c "}" then Some (Closed, d) else None
  | InKey k =>
      if quote then Some (AfterKey (Str.of_list (rev k)), d)
      else if plain c then Some (InKey (c :: k), d) else None
  | AfterKey k =>
      if is_ws c then Some (AfterKey k, d)
      else if Ascii.eqb c ":" then Some (AfterColon k, d) else None
  | AfterColon k =>
      if is_ws c then Some (AfterColon k, d)
      else if quote then Some (InValue k [], d) else None
  | InValue k v =>
      if quote then Some (AfterValue, dict_set d k (Str.of_list (rev v)))
      else if plain c then Some (InValue k (c :: v), d) else None
  | AfterValue =>
      if is_ws c then Some (AfterValue, d)
      else if Ascii.eqb c "," then Some (AfterComma, d)
      else if Ascii.eqb c "}" then Some (Closed, d) else None
  | AfterComma =>
      if is_ws c then Some (AfterComma, d)
      else if quote then Some (InKey [], d) else None
  | Closed =>
      if is_ws c then Some (Closed, d) else None
  end.

Fixpoint json_run (st : json_state * dict) (l : list ascii)
  : option (json_state * dict) :=
  match l with
  | [] => Some st
  | c :: l' =>
      match json_step st c with
      | Some st' => json_run st' l'
      | None => None
      end
  end.

Definition json_loads (text : string) : outcome dict :=
  match json_run (Start, []) (Str.to_list text) with
  | Some (Closed, d) => Ok d
  | _ => Raise (JSONDecodeError text)
  end.

(** The library functions of a POSIX host, with a given remote service. *)
Definition runtime_of (remote : cloudformation) : runtime :=
  Build_runtime fnmatch json_loads urldefrag urlsplit remote.

End Posix.

(** ** main.py *)

Module main.

(** What a module-level name can be bound to, as far as an attribute
    access on it can tell: the module [urllib.parse] (what
    [import urllib.parse as urlparse] would bind), a function imported
    from it (what [from urllib.parse import urlsplit] binds), or another
    object, which has none of the attributes of [urllib.parse]. *)
Inductive object : Type :=
| UrllibParse
| UrllibParseFunction (name : string)
| Other.

(** [urllib.parse.__all__] *)
Definition urllib_parse_all : list string :=
  ["urlparse"; "urlunparse"; "urljoin"; "urldefrag"; "urlsplit";
   "urlunsplit"; "urlencode"; "parse_qs"; "parse_qsl"; "quote";
   "quote_plus"; "quote_from_bytes"; "unquote"; "unquote_plus";
   "unquote_to_bytes"].

(** The names bound at module level once [main.py] has been executed:
    the imports of lines 2-6 and the definitions below them.  No builtin
    is called [urlparse]. *)
Definition module_globals : list (string * object) :=
  [("boto", Other); ("click", Other); ("json", Other);
   ("urldefrag", UrllibParseFunction "urldefrag");
   ("urlsplit", UrllibParseFunction "urlsplit");
   ("resolve", Other); ("retrieve_attribute", Other);
   ("parse_cfn_uri", Other); ("handle_cfn_uri", Other);
   ("resolve_template_with_cfn_support", Other);
   ("aws_profile_help_text", Other); ("minify_help_text", Other);
   ("output_file_optional_help_text", Other);
   ("parameter_help_text", Other); ("cli", Other)].

(** Evaluating a name that no local variable shadows. *)
Definition load_name (bound : list (string * object)) (name : string)
  : outcome object :=
  match find (λ b, String.eqb b.1 name) bound with
  | Some (_, o) => Ok o
  | None => Raise (NameError name)
  end.

(** Evaluating [o.attr]. *)
Definition getattr (o : object) (attr : string) : outcome object :=
  match o with
  | UrllibParse =>
      if existsb (String.eqb attr) urllib_parse_all
      then Ok (UrllibParseFunction attr)
      else Raise (AttributeError attr)
  | UrllibParseFunction _ | Other => Raise (AttributeError attr)
  end.

(** The old boto interface. *)
Record DescribeStackResourceResult_ : Type :=
  { StackResourceDetail : dict }.
Record DescribeStackResourceResponse_ : Type :=
  { DescribeStackResourceResult : DescribeStackResourceResult_ }.
Record response : Type :=
  { DescribeStackResourceResponse : DescribeStackResourceResponse_ }.
Record connection : Type :=
  { describe_stack_resource : string → string → outcome response }.
Record boto_cloudformation : Type :=
  { CloudFormationConnection : connection;
    connect_to_region : string → option connection }.

Section resolver.
Context (rt : runtime) (boto : boto_cloudformation).

(** Lines 9-28. *)
Definition retrieve_attribute (stack_name logical_name attribute : string)
    (region : option string) : outcome string :=
  connection ← match region with
               | None => Ok (CloudFormationConnection boto)
               | Some region =>
                   match connect_to_region boto region with
                   | Some c => Ok c
                   | None => Raise (AttributeError "describe_stack_resource")
                   end
               end;
  response ← describe_stack_resource connection stack_name logical_name;
  let dsr_response := DescribeStackResourceResponse response in
  let dsr_result := DescribeStackResourceResult dsr_response in
  let sr_detail := StackResourceDetail dsr_result in
  dict_getitem sr_detail attribute.

(** Lines 31-77, in a module whose names are bound as in [bound].  Lines
    42 and 43 evaluate the name [urlparse], then its attribute, and only
    then call what they found. *)
Definition parse_cfn_uri (bound : list (string * object)) (uri : string)
  : outcome (string * string * option string * option string) :=
  urlparse ← load_name bound "urlparse";
  getattr urlparse "urldefrag";;
  '(base_uri, frag) ← urldefrag rt uri;
  urlparse ← load_name bound "urlparse";
  getattr urlparse "urlsplit";;
  base_uri_parts ← urlsplit rt base_uri;
  if negb (String.eqb (scheme base_uri_parts) "cfn") then
    Raise (PyException
             ("Scheme '" +:+ scheme base_uri_parts +:+ "' not supported."))
  else
    let netloc_parts := Str.split "@" (netloc base_uri_parts) in
    '(stack_name, region) ←
      match netloc_parts with
      | _ :: _ :: _ :: _ =>
          Raise (PyException
                   ("URI contains unexpected components in net "
                    +:+ "location '" +:+ netloc base_uri_parts +:+ "'."))
      | [stack_name; region] => Ok (stack_name, Some region)
      | [stack_name] => Ok (stack_name, None)
      | [] => Raise (PyException "URI is missing stack name.")
      end;
    let path_parts := Str.split "/" (Str.strip "/" (path base_uri_parts)) in
    '(logical_name, attribute) ←
      match path_parts with
      | _ :: _ :: _ :: _ =>
          Raise (PyException
                   ("URI contains unexpected components in query "
                    +:+ "path '" +:+ path base_uri_parts +:+ "'."))
      | [logical_name; attribute] => Ok (logical_name, Some attribute)
      | [logical_name] => Ok (logical_name, None)
      | [] => Raise (PyException
                       "URI is missing logical name for stack resource.")
      end;
    Ok (stack_name, logical_name, attribute, region).

(** Lines 80-105. *)
Definition handle_cfn_uri (bound : list (string * object)) (uri : string)
  : outcome string :=
  '(stack_name, logical_name, attribute, region) ← parse_cfn_uri bound uri;
  let attribute := match attribute with
                   | None => "PhysicalResourceID"
                   | Some a => a
                   end in
  retrieve_attribute stack_name logical_name attribute region.

End resolver.

(** What [json.load] is given: an open file, or something else. *)
Inductive argument (J : Type) : Type :=
| FileObject (content : string)
| Decoded (v : J).
Arguments FileObject {J} content.
Arguments Decoded {J} v.

Section entry.
Context (rt : runtime) (boto : boto_cloudformation) (h : host).
Context (resolve_ : json h → dict → list (string * (string → outcome string))
                    → outcome (json h)).

(** [json.load(fp)] reads [fp]; a decoded document has no [read]. *)
Definition json_load_from (fp : argument (json h)) : outcome (json h) :=
  match fp with
  | FileObject content => json_load h content
  | Decoded _ => Raise (AttributeError "read")
  end.

(** Lines 108-118. *)
Definition resolve_template_with_cfn_support
    (bound : list (string * object)) (template_data : argument (json h))
    (params : dict)
  : outcome (json h) :=
  document ← json_load_from template_data;
  resolve_ document params [("cfn", handle_cfn_uri rt boto bound)].

(** Lines 148-163; the decorators only describe the command line. *)
Definition cli (bound : list (string * object)) (minify : bool)
    (output_file : option string) (parameter : list string)
    (path_to_document : string) : IO h unit :=
  param_dict ← io_lift (dict_of_pairs (map (Str.split "=") parameter));
  let indent := if minify then None else Some 4 in
  data ← open_r path_to_document;
  template ← io_lift (json_load h data);
  resolved_tree ←
    io_lift (resolve_template_with_cfn_support bound (Decoded template)
                                               param_dict);
  resolved ← io_lift (json_dumps h resolved_tree indent);
  match output_file with
  | None => print resolved
  | Some output_file =>
      on_disk (open_w h output_file);;
      on_disk (write h output_file resolved)
  end.

End entry.

End main.

(** ** Vocabulary of the properties *)

(** The module state with some more remote calls logged. *)
Definition logged (s : state) (cs : list call) : state :=
  {| REGION := REGION s; STACK_LOOKUP := STACK_LOOKUP s;
     calls := calls s ++ cs |}.

(** The module state with [STACK_LOOKUP[k] = d] done. *)
Definition stored (s : state) (k : string) (d : dict) : state :=
  {| REGION := REGION s; STACK_LOOKUP := <[k := d]> (STACK_LOOKUP s);
     calls := calls s |}.

(** The state right after a successful import. *)
Definition fresh (region : string) : state :=
  {| REGION := region; STACK_LOOKUP := ∅; calls := [] |}.

Section vocabulary.
Context (rt : runtime).

(** The logical ids on a page. *)
Definition page_ids (p : list_stack_resources_page) : list string :=
  map LogicalResourceId (StackResourceSummaries p).

(** What the enumeration loop computes from the paginator's pages. *)
Fixpoint paged_ids (pages : list (outcome list_stack_resources_page))
    (ids : list string) : outcome (list string) :=
  match pages with
  | [] => Ok ids
  | Ok p :: pages' => paged_ids pages' (ids ++ page_ids p)
  | Raise e :: _ => Raise e
  end.

(** How many pages it requests: all of them, or up to the failing one. *)
Fixpoint pages_fetched (pages : list (outcome list_stack_resources_page))
  : nat :=
  match pages with
  | [] => 0
  | Ok _ :: pages' => S (pages_fetched pages')
  | Raise _ :: _ => 1
  end.

Definition list_calls (region name : string) (from n : nat) : list call :=
  map (ListStackResources region name) (seq from n).

(** The structural path a detail record carries, if its metadata decodes
    and has the member. *)
Definition cdk_path (d : StackResourceDetail) : option string :=
  match Metadata d with
  | Some text =>
      match json_loads rt text with
      | Ok doc => dict_get doc "aws:cdk:path"
      | Raise _ => None
      end
  | None => None
  end.

(** A detail record the indexing loop gets through without an exception. *)
Definition indexable (d : StackResourceDetail) : Prop :=
  is_Some (PhysicalResourceId d)
  ∧ ∀ text, Metadata d = Some text → is_ok (json_loads rt text) = true.

(** What one iteration of the indexing loop does with the answer to its
    detail request. *)
Definition index_answer (locals : dict * string)
    (r : outcome describe_stack_resource_response) : outcome (dict * string) :=
  response ← r;
  let d := StackResourceDetail_ response in
  physicalId ← match PhysicalResourceId d with
               | Some p => Ok p
               | None => Raise (KeyError "PhysicalResourceId")
               end;
  match Metadata d with
  | Some text =>
      doc ← json_loads rt text;
      match dict_get doc "aws:cdk:path" with
      | Some p => Ok (dict_set locals.1 p physicalId, p)
      | None => Ok locals
      end
  | None => Ok locals
  end.

(** What the indexing loop computes, and how many details it requests. *)
Fixpoint indexed (region name : string) (ids : list string)
    (locals : dict * string) : outcome (dict * string) :=
  match ids with
  | [] => Ok locals
  | idn :: ids' =>
      match index_answer locals
              (describe_stack_resource (aws rt) region name idn) with
      | Ok locals' => indexed region name ids' locals'
      | Raise e => Raise e
      end
  end.

Fixpoint details_fetched (region name : string) (ids : list string)
    (locals : dict * string) : nat :=
  match ids with
  | [] => 0
  | idn :: ids' =>
      match index_answer locals
              (describe_stack_resource (aws rt) region name idn) with
      | Ok locals' => S (details_fetched region name ids' locals')
      | Raise _ => 1
      end
  end.

Definition describe_calls (region name : string) (ids : list string)
  : list call :=
  map (DescribeStackResource region name) ids.

(** The index keys a glob pattern selects, in iteration order. *)
Definition matching_keys (stack : dict) (pattern : string) : list string :=
  filter (λ k, fnmatch rt k pattern = true) (dict_keys stack).

(** A sequence of resolver calls, each run whether or not the one before
    raised. *)
Fixpoint run_calls (cs : list (string * string)) (s : state) : state :=
  match cs with
  | [] => s
  | (name, path) :: cs' =>
      run_calls cs' (cli.retrieve_attribute rt name path s).2
  end.

(** The remote answers the detail requests for [ids] with the records
    [details]. *)
Definition described (region name : string) (ids : list string)
    (details : list StackResourceDetail) : Prop :=
  Forall2 (λ idn d, describe_stack_resource (aws rt) region name idn
                    = Ok {| StackResourceDetail_ := d |}) ids details.

(** Every page of the listing is delivered. *)
Definition listed (region name : string)
    (pages : list list_stack_resources_page) : Prop :=
  list_stack_resources (aws rt) region name = map Ok pages.

(** The logical ids of all pages, in order. *)
Definition all_ids (pages : list list_stack_resources_page) : list string :=
  concat (map page_ids pages).

(** What a detail record adds to the index. *)
Definition index_entry (stack : dict) (d : StackResourceDetail) : dict :=
  match cdk_path d, PhysicalResourceId d with
  | Some p, Some v => dict_set stack p v
  | _, _ => stack
  end.

Definition index_of (details : list StackResourceDetail) : dict :=
  foldl index_entry [] details.

(** [d] is the last record of [details] that carries the path [p]. *)
Definition last_with_path (details : list StackResourceDetail) (p : string)
    (d : StackResourceDetail) : Prop :=
  ∃ before after,
    details = before ++ d :: after
    ∧ cdk_path d = Some p
    ∧ Forall (λ d', cdk_path d' ≠ Some p) after.

(** The value of a key in the index under construction. *)
Fixpoint final_binding (details : list StackResourceDetail) (p : string)
    (init : option string) : option string :=
  match details with
  | [] => init
  | d :: details' =>
      final_binding details' p
        match cdk_path d, PhysicalResourceId d with
        | Some p', Some v => if String.eqb p' p then Some v else init
        | _, _ => init
        end
  end.

End vocabulary.

(** The region a remote call went to. *)
Definition call_region (c : call) : string :=
  match c with
  | ListStackResources region _ _ => region
  | DescribeStackResource region _ _ => region
  end.

(** The stack a remote call asked about. *)
Definition call_stack (c : call) : string :=
  match c with
  | ListStackResources _ name _ => name
  | DescribeStackResource _ name _ => name
  end.

(** A list of keys with one more key seen: new keys go to the end. *)
Definition add_key (seen : list string) (k : string) : list string :=
  if bool_decide (k ∈ seen) then seen else seen ++ [k].

(** The distinct elements of a list, in the order of their first
    occurrence. *)
Definition first_occurrences (l : list string) : list string :=
  foldl add_key [] l.

(** The path and physical id a detail record contributes to the index. *)
Definition entry (rt : runtime) (d : StackResourceDetail)
  : option (string * string) :=
  match cdk_path rt d, PhysicalResourceId d with
  | Some p, Some v => Some (p, v)
  | _, _ => None
  end.

Definition entries (rt : runtime) (details : list StackResourceDetail)
  : list (string * string) :=
  omap (entry rt) details.

(** The keys of parameters given as [key=value]. *)
Definition exactly_one_equals (param : string) : Prop :=
  Str.count "=" param = 1.

(** The messages of the two lookup failures. *)
Definition PathNotFound (path stack_name : string) : exn :=
  PyException ("path " +:+ path +:+ " not found in stack " +:+ stack_name).
Definition NoMatchFound (path stack_name : string) : exn :=
  PyException ("pattern " +:+ path +:+ " not found in stack " +:+ stack_name).
Definition InvalidScheme (scheme : string) : exn :=
  PyException ("Scheme '" +:+ scheme +:+ "' not supported.").

(** ** Vocabulary of the URL library *)

(** A text without tab, line feed and carriage return. *)
Definition clean (l : list ascii) : Prop :=
  Forall (λ c, Posix.unsafe c = false) l.

(** A text that does not start with a control character or a space. *)
Definition solid (l : list ascii) : Prop :=
  match l with
  | [] => True
  | c :: _ => (Posix.code c <=? 32)%nat = false
  end.

(** What an authority can be followed by. *)
Definition ends_authority (t : list ascii) : Prop :=
  match t with
  | [] => True
  | c :: _ => Ascii.eqb c "/" || Ascii.eqb c "?" || Ascii.eqb c "#" = true
  end.

(** A text that neither continues a scheme nor ends one. *)
Definition ends_scheme_text (t : list ascii) : Prop :=
  match t with
  | [] => True
  | c :: _ => Posix.scheme_char c = false ∧ Ascii.eqb c ":" = false
  end.

(** The parts [Posix.urlunsplit] puts a URL together from. *)
Definition scheme_prefix (s : list ascii) : list ascii :=
  if negb (Posix.is_empty s) then s ++ [":"%char] else [].

Definition slashed (p : list ascii) : list ascii :=
  if negb (Posix.is_empty p) && negb (Posix.starts_slash p)
  then "/"%char :: p else p.

Definition query_suffix (q : list ascii) : list ascii :=
  if negb (Posix.is_empty q) then "?"%char :: q else [].

Definition with_authority (s n p : list ascii) : bool :=
  negb (Posix.is_empty n)
  || (negb (Posix.is_empty s) && Posix.mem_str (Str.of_list s) Posix.uses_netloc
      && negb (Posix.starts_2slash p)).

(** A path whose parameters were split off and put back: empty
    parameters take their semicolon with them. *)
Definition rejoined (p p' : list ascii) : Prop :=
  p' = p ∨ p = p' ++ [";"%char].

(** The empty scheme, or a lower-cased scheme. *)
Definition scheme_text (s : list ascii) : Prop :=
  s = [] ∨ ∃ c0 pre, s = map Posix.lower (c0 :: pre)
                     ∧ Posix.is_alpha c0 = true
                     ∧ forallb Posix.scheme_char (c0 :: pre) = true.

(** What [Posix.urlsplit_list] guarantees of the components it returns. *)
Record well_split (s n p q : list ascii) : Prop :=
  { split_clean : clean s ∧ clean n ∧ clean p ∧ clean q;
    split_scheme_text : scheme_text s;
    split_netloc_ends :
      Posix.mem "/" n = false ∧ Posix.mem "?" n = false
      ∧ Posix.mem "#" n = false;
    split_netloc_brackets : xorb (Posix.mem "[" n) (Posix.mem "]" n) = false;
    split_path_ends : Posix.mem "?" p = false ∧ Posix.mem "#" p = false;
    split_query_ends : Posix.mem "#" q = false;
    split_path_after_netloc :
      n ≠ [] → p = [] ∨ Posix.starts_slash p = true;
    split_path_alone :
      s = [] → n = [] →
      (p = [] ∨ Posix.starts_slash p = true)
      ∨ ∃ t, ends_scheme_text t ∧ solid (p ++ t)
             ∧ Posix.split_scheme (p ++ t) = ([], p ++ t) }.

(** ** A stack and its remote answers *)

Module Example.

(** The metadata text of a CDK resource at structural path [p]. *)
Definition metadata (p : string) : string :=
  "{" +:+ Posix.quoted "aws:cdk:path" +:+ ": " +:+ Posix.quoted p +:+ "}".

Definition page (ids : list string) : outcome list_stack_resources_page :=
  Ok {| StackResourceSummaries := map Build_StackResourceSummary ids |}.

Definition detail (physical : string) (meta : option string)
  : outcome describe_stack_resource_response :=
  Ok {| StackResourceDetail_ :=
         {| PhysicalResourceId := Some physical; Metadata := meta |} |}.

(** Three stacks, the same in every region.  [Stack] has the resources
    [A] and [B] on its first page and [C], which has no metadata, on its
    second; [Twin] has two resources that carry the same structural
    path; the details of [Flaky]'s second resource cannot be fetched.
    No other stack exists. *)
Definition remote : cloudformation :=
  {| list_stack_resources := λ _ name,
       if String.eqb name "Stack" then [page ["A"; "B"]; page ["C"]]
       else if String.eqb name "Twin" then [page ["X"; "Y"]]
       else if String.eqb name "Flaky" then [page ["A"; "Gone"]]
       else [Raise (ClientError ("Stack " +:+ name +:+ " does not exist"))];
     describe_stack_resource := λ _ name idn,
       if String.eqb name "Stack" then
         if String.eqb idn "A" then detail "id1" (Some (metadata "Stack/A"))
         else if String.eqb idn "B" then detail "id2" (Some (metadata "Stack/B"))
         else detail "id3" None
       else if String.eqb name "Twin" then
         if String.eqb idn "X" then detail "idX" (Some (metadata "Twin/X"))
         else detail "idY" (Some (metadata "Twin/X"))
       else if String.eqb name "Flaky" then
         if String.eqb idn "A" then detail "id1" (Some (metadata "Flaky/A"))
         else Raise (ClientError ("Resource " +:+ idn +:+ " does not exist"))
       else Raise (ClientError ("Stack " +:+ name +:+ " does not exist")) |}.

Definition rt : runtime := Posix.runtime_of remote.

Definition region : string := "eu-west-1".

(** The index of [Stack], and a module state that has it cached. *)
Definition index : dict := [("Stack/A", "id1"); ("Stack/B", "id2")].
Definition warm : state := stored (fresh region) "Stack" index.

End Example.

(** ** A stack without CDK metadata *)

Module Plain.

(** [Plain] has two resources, neither with metadata; no other stack
    exists. *)
Definition remote : cloudformation :=
  {| list_stack_resources := λ _ name,
       if String.eqb name "Plain" then [Example.page ["Queue"; "Topic"]]
       else [Raise (ClientError ("Stack " +:+ name +:+ " does not exist"))];
     describe_stack_resource := λ _ name idn,
       if String.eqb name "Plain" then
         if String.eqb idn "Queue" then Example.detail "queue-1" None
         else Example.detail "topic-1" None
       else Raise (ClientError ("Stack " +:+ name +:+ " does not exist")) |}.

Definition rt : runtime := Posix.runtime_of remote.

End Plain.

(** ** A host for the commands *)

Module Desk.

(** Documents are kept as their text, the resolution returns a document
    without directives as it is, and the files are a map from paths to
    contents; a file that is not there cannot be read (an [OSError], of
    which the message is kept). *)
Definition host : host :=
  {| json := string;
     json_load := λ text, Ok text;
     json_dumps := λ tree _, Ok tree;
     resolve := λ document _ _, mret document;
     files := gmap string string;
     read_file := λ path d,
       match d !! path with
       | Some text => Ok text
       | None => Raise (PyException ("No such file or directory: " +:+ path))
       end;
     open_w := λ path d, (Ok tt, <[path := EmptyString]> d);
     write := λ path text d, (Ok tt, <[path := text]> d) |}.

Definition boto : main.boto_cloudformation :=
  {| main.CloudFormationConnection :=
       {| main.describe_stack_resource := λ _ _,
            Raise (ClientError "no credentials") |};
     main.connect_to_region := λ _, None |}.

(** A process that has imported the module, with one template on disk. *)
Definition start : process host :=
  {| module_state := fresh Example.region;
     stdout := [];
     disk := {[ "template.json" := "{}" ]} |}.

End Desk.

(** * Properties *)

(** ** Properties of the monad and of dictionaries *)

Lemma logged_nil s : logged s [] = s.
Proof. destruct s. unfold logged. simpl. by rewrite app_nil_r. Qed.

Lemma logged_app s cs1 cs2 : logged (logged s cs1) cs2 = logged s (cs1 ++ cs2).
Proof. unfold logged. simpl. by rewrite app_assoc. Qed.

Lemma dict_get_set_eq d k v : dict_get (dict_set d k v) k = Some v.
Proof.
  induction d as [|[k' v'] d IH]; simpl.
  - by rewrite String.eqb_refl.
  - destruct (String.eqb k' k) eqn:E; simpl; rewrite E; done.
Qed.

Lemma dict_get_set_ne d k k' v :
  k ≠ k' → dict_get (dict_set d k v) k' = dict_get d k'.
Proof.
  intros Hne. induction d as [|[k0 v0] d IH]; simpl.
  - destruct (String.eqb k k') eqn:E; [|done].
    apply String.eqb_eq in E. done.
  - destruct (String.eqb k0 k) eqn:E; simpl.
    + apply String.eqb_eq in E. subst k0.
      destruct (String.eqb k k') eqn:E'; [|done].
      apply String.eqb_eq in E'. done.
    + by rewrite IH.
Qed.

Lemma dict_get_keys d k : k ∈ dict_keys d → is_Some (dict_get d k).
Proof.
  induction d as [|[k' v'] d IH]; simpl.
  - by intros ?%elem_of_nil.
  - intros [->|Hin]%elem_of_cons.
    + rewrite String.eqb_refl. eauto.
    + destruct (String.eqb k' k); eauto.
Qed.

Lemma dict_keys_get d k : is_Some (dict_get d k) → k ∈ dict_keys d.
Proof.
  induction d as [|[k' v'] d IH]; simpl.
  - by intros [? ?].
  - destruct (String.eqb k' k) eqn:E.
    + apply String.eqb_eq in E. subst. intros _. apply elem_of_cons. by left.
    + intros H. apply elem_of_cons. right. by apply IH.
Qed.

(** ** The two loops of the index construction *)

Section loops.
Context (rt : runtime).

Lemma collect_ids_fold (ids : list string) (l : list StackResourceSummary) :
  foldl (λ ids res2, ids ++ [LogicalResourceId res2]) ids l
  = ids ++ map LogicalResourceId l.
Proof.
  revert ids. induction l as [|x l IH]; intros ids; simpl.
  - by rewrite app_nil_r.
  - rewrite IH. by rewrite <- app_assoc.
Qed.

Lemma enumerate_run region name pages :
  ∀ (f : nat → outcome list_stack_resources_page → M list_stack_resources_page)
    from ids s,
    (∀ k r, f k r = remote (ListStackResources region name (from + k)) r) →
    for_each (imap f pages) cli.collect_ids ids s
    = (paged_ids pages ids,
       logged s (list_calls region name from (pages_fetched pages))).
Proof.
  induction pages as [|r pages IH]; intros f from ids s Hf; simpl.
  - by rewrite logged_nil.
  - unfold mbind, M_bind, bind, cli.collect_ids at 1.
    unfold mbind, M_bind, bind. rewrite Hf. unfold remote at 1.
    destruct r as [p|e]; simpl.
    + rewrite collect_ids_fold.
      rewrite (IH (f ∘ S) (S from)).
      * unfold list_calls. simpl. rewrite Nat.add_0_r.
        unfold logged. simpl. rewrite <- app_assoc. done.
      * intros k r. simpl. rewrite Hf. do 2 f_equal. lia.
    + rewrite Nat.add_0_r. done.
Qed.

Lemma index_resource_run region name locals idn s :
  cli.index_resource rt (boto3_client rt region) name locals idn s
  = (index_answer rt locals (describe_stack_resource (aws rt) region name idn),
     logged s [DescribeStackResource region name idn]).
Proof.
  destruct locals as [stack path]. unfold cli.index_resource, index_answer.
  unfold cli.describe, remote, mbind, M_bind, bind, lift. simpl.
  destruct (describe_stack_resource _ _ _ _) as [[d]|e]; simpl; [|done].
  destruct (PhysicalResourceId d) as [phys|]; simpl; [|done].
  destruct (Metadata d) as [text|]; simpl; [|done].
  destruct (json_loads rt text) as [doc|e]; simpl; [|done].
  unfold dict_contains, dict_getitem.
  destruct (dict_get doc "aws:cdk:path"); done.
Qed.

Lemma index_run region name ids :
  ∀ locals s,
    for_each ids (cli.index_resource rt (boto3_client rt region) name) locals s
    = (indexed rt region name ids locals,
       logged s (describe_calls region name
                   (take (details_fetched rt region name ids locals) ids))).
Proof.
  induction ids as [|idn ids IH]; intros locals s; simpl.
  - by rewrite logged_nil.
  - unfold mbind, M_bind, bind. rewrite index_resource_run.
    destruct (index_answer _ _ _) as [locals'|e]; simpl; [|done].
    rewrite IH. unfold describe_calls. by rewrite logged_app.
Qed.

(** The body of [if stack_name not in STACK_LOOKUP], as a function of the
    remote answers. *)
Lemma build_run name path s :
  let region := REGION s in
  let pages := list_stack_resources (aws rt) region name in
  let listed := list_calls region name 0 (pages_fetched pages) in
  cli.build rt name path s
  = match paged_ids pages [] with
    | Raise e => (Raise e, logged s listed)
    | Ok ids =>
        let fetched :=
          describe_calls region name
            (take (details_fetched rt region name ids ([], path)) ids) in
        match indexed rt region name ids ([], path) with
        | Raise e => (Raise e, logged s (listed ++ fetched))
        | Ok (stack, path') =>
            (Ok path', stored (logged s (listed ++ fetched)) name stack)
        end
    end.
Proof.
  intros region pages listed. unfold cli.build.
  unfold mbind at 1, M_bind at 1, bind at 1, get_REGION at 1.
  unfold mbind at 1, M_bind at 1, bind at 1.
  unfold cli.paginate. simpl region_name. simpl service.
  rewrite (enumerate_run (REGION s) name _ _ 0); [|done].
  fold region pages listed.
  destruct (paged_ids pages []) as [ids|e]; [|done].
  unfold mbind at 1, M_bind at 1, bind at 1.
  rewrite index_run. rewrite logged_app.
  destruct (indexed rt _ name ids ([], path)) as [[stack path']|e]; simpl; done.
Qed.

End loops.

(** ** The resolver as a function of the cache and the remote answers *)

Section resolver_run.
Context (rt : runtime).

Lemma retrieve_cached name path s stack :
  STACK_LOOKUP s !! name = Some stack →
  cli.retrieve_attribute rt name path s = (cli.lookup rt name stack path, s).
Proof.
  intros Hc. unfold cli.retrieve_attribute.
  unfold mbind, M_bind, bind, get_STACK_LOOKUP, lift, mret, M_ret, ret.
  simpl. rewrite Hc. simpl. rewrite Hc. done.
Qed.

Lemma retrieve_uncached name path s :
  STACK_LOOKUP s !! name = None →
  let region := REGION s in
  let pages := list_stack_resources (aws rt) region name in
  let listed := list_calls region name 0 (pages_fetched pages) in
  cli.retrieve_attribute rt name path s
  = match paged_ids pages [] with
    | Raise e => (Raise e, logged s listed)
    | Ok ids =>
        let fetched :=
          describe_calls region name
            (take (details_fetched rt region name ids ([], path)) ids) in
        match indexed rt region name ids ([], path) with
        | Raise e => (Raise e, logged s (listed ++ fetched))
        | Ok (stack, path') =>
            (cli.lookup rt name stack path',
             stored (logged s (listed ++ fetched)) name stack)
        end
    end.
Proof.
  intros Hc region pages listed. unfold cli.retrieve_attribute.
  unfold mbind at 1, M_bind at 1, bind at 1, get_STACK_LOOKUP at 1.
  rewrite Hc.
  unfold mbind at 1, M_bind at 1, bind at 1.
  rewrite build_run. fold region pages listed.
  destruct (paged_ids pages []) as [ids|e]; [|done].
  destruct (indexed rt region name ids ([], path)) as [[stack path']|e];
    [|done].
  unfold mbind, M_bind, bind, get_STACK_LOOKUP, lift. simpl.
  rewrite lookup_insert_eq. done.
Qed.

(** The glob loop returns the values of the matching keys, in key order. *)
Lemma collect_matches stack pattern keys :
  ∀ acc, (∀ k, k ∈ keys → k ∈ dict_keys stack) →
    ∃ ids,
      cli.for_each_pure keys (cli.collect_match rt stack pattern) acc
      = Ok (acc ++ ids)
      ∧ Forall2 (λ k v, dict_get stack k = Some v)
                (filter (λ k, fnmatch rt k pattern = true) keys) ids.
Proof.
  induction keys as [|k keys IH]; intros acc Hin; simpl.
  - exists []. rewrite app_nil_r. split; [done|constructor].
  - unfold mbind, outcome_bind', outcome_bind, cli.collect_match at 1.
    rewrite filter_cons.
    destruct (decide (fnmatch rt k pattern = true)) as [Hm|Hm].
    + rewrite Hm. destruct (dict_get_keys stack k) as [v Hv].
      { apply Hin. apply elem_of_cons. by left. }
      unfold dict_getitem. rewrite Hv. simpl.
      destruct (IH (acc ++ [v])) as (ids & Hrun & Hall).
      { intros k' Hk'. apply Hin. apply elem_of_cons. by right. }
      exists (v :: ids). rewrite Hrun. rewrite <- app_assoc. simpl.
      split; [done|]. by constructor.
    + apply not_true_is_false in Hm. rewrite Hm. simpl.
      destruct (IH acc) as (ids & Hrun & Hall).
      { intros k' Hk'. apply Hin. apply elem_of_cons. by right. }
      exists ids. done.
Qed.

Lemma lookup_glob name stack pattern :
  cli.has_wildcards pattern = true →
  ∃ ids,
    Forall2 (λ k v, dict_get stack k = Some v)
            (matching_keys rt stack pattern) ids
    ∧ cli.lookup rt name stack pattern
      = match ids with
        | [] => Raise (NoMatchFound pattern name)
        | _ :: _ => Ok (Sequence ids)
        end.
Proof.
  intros Hw. unfold cli.lookup. rewrite Hw.
  destruct (collect_matches stack pattern (dict_keys stack) [])
    as (ids & Hrun & Hall); [done|].
  exists ids. split; [exact Hall|].
  rewrite Hrun. simpl. destruct ids; done.
Qed.

Lemma lookup_exact name stack path :
  cli.has_wildcards path = false →
  cli.lookup rt name stack path
  = match dict_get stack path with
    | Some v => Ok (Scalar v)
    | None => Raise (PathNotFound path name)
    end.
Proof.
  intros Hw. unfold cli.lookup. rewrite Hw.
  unfold dict_contains, dict_getitem.
  destruct (dict_get stack path); done.
Qed.

End resolver_run.

(** ** The path that is looked up (C1) *)

Section looked_up_path.
Context (rt : runtime).

Lemma dict_set_keeps d k v q :
  is_Some (dict_get d q) → is_Some (dict_get (dict_set d k v) q).
Proof.
  intros H. destruct (decide (k = q)) as [->|Hne].
  - rewrite dict_get_set_eq. eauto.
  - by rewrite dict_get_set_ne.
Qed.

(** One iteration either leaves the locals alone or assigns [path] a key
    of the index; which of the two does not depend on [path]. *)
Lemma index_answer_path stack p1 p2 r :
  match index_answer rt (stack, p1) r, index_answer rt (stack, p2) r with
  | Ok (st1, q1), Ok (st2, q2) =>
      st1 = st2
      ∧ ((st1 = stack ∧ q1 = p1 ∧ q2 = p2)
         ∨ (q1 = q2 ∧ is_Some (dict_get st1 q1)))
  | Raise e1, Raise e2 => e1 = e2
  | _, _ => False
  end.
Proof.
  unfold index_answer. destruct r as [[d]|e]; simpl; [|done].
  destruct (PhysicalResourceId d) as [phys|]; simpl; [|done].
  destruct (Metadata d) as [text|]; simpl; [|by auto].
  destruct (json_loads rt text) as [doc|e]; simpl; [|done].
  destruct (dict_get doc "aws:cdk:path") as [p|]; [|by auto].
  split; [done|]. right. split; [done|]. rewrite dict_get_set_eq. eauto.
Qed.

Lemma index_answer_keeps stack p r st q k :
  index_answer rt (stack, p) r = Ok (st, q) →
  is_Some (dict_get stack k) → is_Some (dict_get st k).
Proof.
  unfold index_answer. destruct r as [[d]|e]; simpl; [|done].
  destruct (PhysicalResourceId d) as [phys|]; simpl; [|done].
  destruct (Metadata d) as [text|]; simpl; [|by intros [= <- <-]].
  destruct (json_loads rt text) as [doc|e]; simpl; [|done].
  destruct (dict_get doc "aws:cdk:path") as [p'|]; [|by intros [= <- <-]].
  intros [= <- <-]. apply dict_set_keeps.
Qed.

Lemma indexed_keeps region name ids :
  ∀ stack p st q k,
    indexed rt region name ids (stack, p) = Ok (st, q) →
    is_Some (dict_get stack k) → is_Some (dict_get st k).
Proof.
  induction ids as [|idn ids IH]; intros stack p st q k; simpl.
  - by intros [= <- <-].
  - destruct (index_answer rt (stack, p) _) as [[st' q']|e] eqn:E; [|done].
    intros H Hk. eapply IH; [exact H|]. eapply index_answer_keeps; eauto.
Qed.

(** The indexing loop run with two different values of the parameter
    [path]: same index and same remote calls; and either no resource
    carried a structural path, or [path] ends up the same key of the
    index in both runs. *)
Lemma indexed_path region name ids :
  ∀ stack p1 p2,
    details_fetched rt region name ids (stack, p1)
    = details_fetched rt region name ids (stack, p2)
    ∧ match indexed rt region name ids (stack, p1),
            indexed rt region name ids (stack, p2) with
      | Ok (st1, q1), Ok (st2, q2) =>
          st1 = st2
          ∧ ((st1 = stack ∧ q1 = p1 ∧ q2 = p2)
             ∨ (q1 = q2 ∧ is_Some (dict_get st1 q1)))
      | Raise e1, Raise e2 => e1 = e2
      | _, _ => False
      end.
Proof.
  induction ids as [|idn ids IH]; intros stack p1 p2; simpl.
  { split; [done|]. split; [done|]. by left. }
  pose proof (index_answer_path stack p1 p2
                (describe_stack_resource (aws rt) region name idn)) as H.
  destruct (index_answer rt (stack, p1) _) as [[st1 q1]|e1] eqn:E1;
    destruct (index_answer rt (stack, p2) _) as [[st2 q2]|e2] eqn:E2;
    try done.
  destruct H as [<- [(-> & -> & ->)|[<- Hq]]].
  - destruct (IH stack p1 p2) as [-> H]. done.
  - destruct (IH st1 q1 q1) as [_ H].
    destruct (indexed rt region name ids (st1, q1)) as [[st q]|e] eqn:E;
      [|done].
    do 2 (split; [done|]). right. split; [done|].
    destruct H as [_ [(-> & -> & _)|[_ H]]]; done.
Qed.

(** On the call that builds a non-empty index, the outcome does not
    depend on the requested path at all. *)
Lemma first_call_ignores_path name p1 p2 s ids stack q :
  STACK_LOOKUP s !! name = None →
  paged_ids (list_stack_resources (aws rt) (REGION s) name) [] = Ok ids →
  indexed rt (REGION s) name ids ([], p1) = Ok (stack, q) →
  stack ≠ [] →
  cli.retrieve_attribute rt name p1 s = cli.retrieve_attribute rt name p2 s.
Proof.
  intros Hc Hids Hix Hne.
  rewrite !retrieve_uncached by done. simpl. rewrite Hids.
  destruct (indexed_path (REGION s) name ids [] p1 p2) as [Hd H].
  rewrite Hd. rewrite Hix in *.
  destruct (indexed rt (REGION s) name ids ([], p2)) as [[st2 q2]|e];
    [|done].
  destruct H as [<- [(-> & _)|[<- _]]]; done.
Qed.

End looked_up_path.

(** C1: the structural path that is tested and looked up is meant to be the
    one of the locator.  It is when the index is cached; on the call that
    builds the index it is the path of the last indexed resource.  With an
    empty cache, [cfn://Stack/A] resolves to the physical id of [Stack/B];
    the index built by that call maps [Stack/A] to [id1], and the same
    reference resolves to [id1] from then on. *)
Theorem locator_path_lost_when_index_is_built :
  let first := cli.handle_cfn_uri Example.rt "cfn://Stack/A"
                 (fresh Example.region) in
  cli.parse_cfn_uri Example.rt "cfn://Stack/A" = Ok ("Stack", "Stack/A")
  ∧ first.1 = Ok (Scalar "id2")
  ∧ STACK_LOOKUP first.2 !! "Stack" = Some Example.index
  ∧ dict_get Example.index "Stack/A" = Some "id1"
  ∧ (cli.handle_cfn_uri Example.rt "cfn://Stack/A" first.2).1
    = Ok (Scalar "id1").
Proof. vm_compute. done. Qed.

(** ** Lookups in a cached index (C2, C4) *)

(** C4: with the index of the stack cached, an exact lookup raises exactly
    when the path is not a key of the index, and what it raises is the
    path-not-found exception; a glob lookup raises exactly when no key
    matches, and what it raises is the no-match exception; in every other
    case a value is returned.  No remote call is made and the module state
    is left as it was. *)
Theorem cached_lookup_fails_iff rt s name stack path :
  STACK_LOOKUP s !! name = Some stack →
  let r := cli.retrieve_attribute rt name path s in
  r.2 = s
  ∧ (cli.has_wildcards path = false →
     (r.1 = Raise (PathNotFound path name) ↔ dict_get stack path = None)
     ∧ (is_ok r.1 = false ↔ dict_get stack path = None))
  ∧ (cli.has_wildcards path = true →
     (r.1 = Raise (NoMatchFound path name) ↔ matching_keys rt stack path = [])
     ∧ (is_ok r.1 = false ↔ matching_keys rt stack path = [])).
Proof.
  intros Hc r. subst r. rewrite (retrieve_cached rt name path s stack Hc).
  simpl. split; [done|]. split; intros Hw.
  - rewrite lookup_exact by done.
    destruct (dict_get stack path) as [v|]; simpl; split; split; done.
  - destruct (lookup_glob rt name stack path Hw) as (ids & Hall & ->).
    destruct ids as [|v ids]; simpl.
    + apply Forall2_nil_inv_r in Hall. rewrite Hall. split; split; done.
    + apply Forall2_cons_inv_r in Hall as (k & ks & _ & _ & ->).
      split; split; done.
Qed.

Lemma cached_lookup_fails_iff_witness :
  STACK_LOOKUP Example.warm !! "Stack" = Some Example.index
  ∧ (cli.retrieve_attribute Example.rt "Stack" "Stack/C" Example.warm).1
    = Raise (PathNotFound "Stack/C" "Stack")
  ∧ (cli.retrieve_attribute Example.rt "Stack" "Stack/Z*" Example.warm).1
    = Raise (NoMatchFound "Stack/Z*" "Stack").
Proof.
  split; [reflexivity|]. split.
  - destruct (cached_lookup_fails_iff Example.rt Example.warm "Stack"
                Example.index "Stack/C" eq_refl) as (_ & Hexact & _).
    destruct (Hexact eq_refl) as [[_ H] _]. apply H. reflexivity.
  - destruct (cached_lookup_fails_iff Example.rt Example.warm "Stack"
                Example.index "Stack/Z*" eq_refl) as (_ & _ & Hglob).
    destruct (Hglob eq_refl) as [[_ H] _]. apply H. reflexivity.
Defined.

(** C2, as amended: with the index of the stack cached, a path without
    [*], [?], [[] that is a key of the index resolves to the one physical
    id bound to it, as a scalar; a path with one of these characters that
    matches at least one key resolves to the sequence of the physical ids
    of exactly the matching keys, in the iteration order of the index.
    (When no key matches, the lookup raises; it does not return the empty
    sequence.) *)
Theorem cached_lookup_returns rt s name stack path :
  STACK_LOOKUP s !! name = Some stack →
  let r := cli.retrieve_attribute rt name path s in
  (cli.has_wildcards path = false →
   ∀ v, dict_get stack path = Some v → r.1 = Ok (Scalar v))
  ∧ (cli.has_wildcards path = true →
     matching_keys rt stack path ≠ [] →
     ∃ ids, r.1 = Ok (Sequence ids)
            ∧ Forall2 (λ k v, dict_get stack k = Some v)
                      (matching_keys rt stack path) ids).
Proof.
  intros Hc r. subst r. rewrite (retrieve_cached rt name path s stack Hc).
  simpl. split; intros Hw.
  - intros v Hv. rewrite lookup_exact by done. by rewrite Hv.
  - intros Hne. destruct (lookup_glob rt name stack path Hw) as (ids & Hall & ->).
    destruct ids as [|v ids].
    + apply Forall2_nil_inv_r in Hall. done.
    + exists (v :: ids). done.
Qed.

Lemma cached_lookup_returns_witness :
  STACK_LOOKUP Example.warm !! "Stack" = Some Example.index
  ∧ (cli.retrieve_attribute Example.rt "Stack" "Stack/A" Example.warm).1
    = Ok (Scalar "id1")
  ∧ ∃ ids,
      (cli.retrieve_attribute Example.rt "Stack" "Stack/*" Example.warm).1
      = Ok (Sequence ids)
      ∧ Forall2 (λ k v, dict_get Example.index k = Some v)
                (matching_keys Example.rt Example.index "Stack/*") ids.
Proof.
  split; [reflexivity|]. split.
  - destruct (cached_lookup_returns Example.rt Example.warm "Stack"
                Example.index "Stack/A" eq_refl) as [Hexact _].
    apply Hexact; reflexivity.
  - destruct (cached_lookup_returns Example.rt Example.warm "Stack"
                Example.index "Stack/*" eq_refl) as [_ Hglob].
    apply Hglob; [reflexivity|]. vm_compute. discriminate.
Defined.

(** C2 as first stated fails on a pattern that matches no key: the keys of
    the cached index that match [Stack/Z*] are none, and the resolver
    raises where the claim has it return their (empty) sequence of ids. *)
Lemma glob_without_match_returns_no_sequence :
  STACK_LOOKUP Example.warm !! "Stack" = Some Example.index
  ∧ cli.has_wildcards "Stack/Z*" = true
  ∧ matching_keys Example.rt Example.index "Stack/Z*" = []
  ∧ ¬ ∃ ids,
        (cli.retrieve_attribute Example.rt "Stack" "Stack/Z*" Example.warm).1
        = Ok (Sequence ids).
Proof.
  split; [reflexivity|]. split; [reflexivity|]. split; [reflexivity|].
  intros [ids H]. vm_compute in H. discriminate.
Qed.

(** The example of the specification: exact and glob lookups in the index
    [{Stack/A: id1, Stack/B: id2}]. *)
Example exact_vs_glob :
  let resolve path :=
    (cli.retrieve_attribute Example.rt "Stack" path Example.warm).1 in
  resolve "Stack/A" = Ok (Scalar "id1")
  ∧ resolve "Stack/*" = Ok (Sequence ["id1"; "id2"])
  ∧ resolve "Stack/C" = Raise (PathNotFound "Stack/C" "Stack")
  ∧ resolve "Stack/Z*" = Raise (NoMatchFound "Stack/Z*" "Stack").
Proof. vm_compute. done. Qed.

(** ** Building the index (C3, C6, C7) *)

Section build.
Context (rt : runtime).

Lemma paged_ids_all pages :
  ∀ ids, paged_ids (map Ok pages) ids = Ok (ids ++ all_ids pages)
         ∧ pages_fetched (map Ok pages) = length pages.
Proof.
  induction pages as [|p pages IH]; intros ids; simpl.
  - by rewrite app_nil_r.
  - destruct (IH (ids ++ page_ids p)) as [-> ->].
    unfold all_ids. simpl. by rewrite <- app_assoc.
Qed.

Lemma index_answer_ok locals d :
  indexable rt d →
  ∃ q, index_answer rt locals (Ok {| StackResourceDetail_ := d |})
       = Ok (index_entry rt locals.1 d, q).
Proof.
  intros [[v Hv] Hmeta]. destruct locals as [stack p].
  unfold index_answer, index_entry, cdk_path. simpl. rewrite Hv. simpl.
  destruct (Metadata d) as [text|]; [|by eauto].
  specialize (Hmeta text eq_refl).
  destruct (json_loads rt text) as [doc|e]; [|done]. simpl.
  destruct (dict_get doc "aws:cdk:path"); eauto.
Qed.

Lemma indexed_ok region name ids details :
  described rt region name ids details →
  Forall (indexable rt) details →
  ∀ locals,
    details_fetched rt region name ids locals = length ids
    ∧ ∃ q, indexed rt region name ids locals
           = Ok (foldl (index_entry rt) locals.1 details, q).
Proof.
  induction 1 as [|idn d ids details Hd _ IH]; intros Hix locals; simpl.
  - destruct locals. eauto.
  - apply Forall_cons in Hix as [Hix1 Hix]. rewrite Hd.
    destruct (index_answer_ok locals d Hix1) as [q ->].
    destruct (IH Hix (index_entry rt locals.1 d, q)) as [-> H]. done.
Qed.

Lemma index_final_binding details p :
  ∀ stack, dict_get (foldl (index_entry rt) stack details) p
           = final_binding rt details p (dict_get stack p).
Proof.
  induction details as [|d details IH]; intros stack; simpl; [done|].
  rewrite IH. f_equal. unfold index_entry.
  destruct (cdk_path rt d) as [p'|]; [|done].
  destruct (PhysicalResourceId d) as [v|]; [|done].
  destruct (String.eqb p' p) eqn:E.
  - apply String.eqb_eq in E. subst. apply dict_get_set_eq.
  - apply String.eqb_neq in E. by apply dict_get_set_ne.
Qed.

Lemma final_binding_last details p v :
  Forall (λ d, is_Some (PhysicalResourceId d)) details →
  ∀ init,
    final_binding rt details p init = Some v
    ↔ (∃ d, last_with_path rt details p d ∧ PhysicalResourceId d = Some v)
      ∨ (init = Some v ∧ Forall (λ d, cdk_path rt d ≠ Some p) details).
Proof.
  induction 1 as [|d details [v' Hv'] _ IH]; intros init; simpl.
  - split; [by right|]. intros [(d & (b & a & H & _) & _)|[? _]]; [|done].
    by destruct b.
  - rewrite IH, Hv'. clear IH. split.
    + intros [(d0 & (b & a & -> & Hp & Ha) & Hv)|[Hi Hall]].
      * left. exists d0. split; [|done]. by exists (d :: b), a.
      * destruct (cdk_path rt d) as [p'|] eqn:Hp.
        -- destruct (String.eqb p' p) eqn:E.
           ++ apply String.eqb_eq in E. subst p'. left. exists d.
              split; [by exists [], details|]. congruence.
           ++ apply String.eqb_neq in E. right. split; [done|].
              constructor; [simpl; congruence|done].
        -- right. split; [done|]. constructor; [simpl; congruence|done].
    + intros [(d0 & (b & a & Heq & Hp & Ha) & Hv)|[Hi Hall]].
      * destruct b as [|d1 b]; simplify_eq/=.
        -- right. rewrite Hp, String.eqb_refl. split; [congruence|done].
        -- left. exists d0. split; [|done]. by exists b, a.
      * apply Forall_cons in Hall as [Hd Hall]. right. split; [|done].
        destruct (cdk_path rt d) as [p'|]; [|done].
        destruct (String.eqb p' p) eqn:E; [|done].
        apply String.eqb_eq in E. by subst.
Qed.

(** A resolver call never touches an index that is in the cache. *)
Lemma retrieve_keeps_cached name path s k stack :
  STACK_LOOKUP s !! k = Some stack →
  STACK_LOOKUP (cli.retrieve_attribute rt name path s).2 !! k = Some stack.
Proof.
  intros Hk. destruct (STACK_LOOKUP s !! name) as [st|] eqn:Hc.
  - by rewrite (retrieve_cached rt name path s st).
  - rewrite retrieve_uncached by done. simpl.
    destruct (paged_ids _ _) as [ids|e]; [|done].
    destruct (indexed rt _ _ _ _) as [[st q]|e]; [|done].
    simpl. rewrite lookup_insert_ne; [done|]. by intros ->; simplify_eq.
Qed.

Lemma run_calls_keeps_cached cs :
  ∀ s k stack, STACK_LOOKUP s !! k = Some stack →
               STACK_LOOKUP (run_calls rt cs s) !! k = Some stack.
Proof.
  induction cs as [|[name path] cs IH]; intros s k stack Hk; simpl; [done|].
  apply IH. by apply retrieve_keeps_cached.
Qed.

End build.

Section build_failures.
Context (rt : runtime).

Lemma paged_ids_first_raise before e after :
  ∀ ids, paged_ids (map Ok before ++ Raise e :: after) ids = Raise e.
Proof. induction before as [|p before IH]; intros ids; simpl; [done|apply IH]. Qed.

Lemma paged_ids_some_raise pages e :
  Raise e ∈ pages → ∀ ids, ∃ e', paged_ids pages ids = Raise e'.
Proof.
  induction pages as [|[p|e0] pages IH]; intros Hin ids; simpl.
  - by apply elem_of_nil in Hin.
  - apply elem_of_cons in Hin as [?|Hin]; [done|]. by apply IH.
  - eauto.
Qed.

Lemma indexed_first_raise region name ids1 idn ids2 e :
  describe_stack_resource (aws rt) region name idn = Raise e →
  ∀ locals locals',
    indexed rt region name ids1 locals = Ok locals' →
    indexed rt region name (ids1 ++ idn :: ids2) locals = Raise e.
Proof.
  intros He. induction ids1 as [|i ids1 IH]; intros locals locals'; simpl.
  - intros _. by rewrite He.
  - destruct (index_answer rt locals _) as [l|e0]; [|done]. apply IH.
Qed.

Lemma indexed_some_raise region name ids idn e :
  describe_stack_resource (aws rt) region name idn = Raise e →
  idn ∈ ids →
  ∀ locals, ∃ e', indexed rt region name ids locals = Raise e'.
Proof.
  intros He. induction ids as [|i ids IH]; intros Hin locals; simpl.
  - by apply elem_of_nil in Hin.
  - destruct (index_answer rt locals _) as [l|e0] eqn:E; [|by eauto].
    apply elem_of_cons in Hin as [->|Hin]; [|by apply IH].
    rewrite He in E. done.
Qed.

(** Whenever the build raises, the call raises the same exception and the
    cache is as it was. *)
Lemma retrieve_build_raises name path s e :
  STACK_LOOKUP s !! name = None →
  (paged_ids (list_stack_resources (aws rt) (REGION s) name) [] = Raise e
   ∨ ∃ ids, paged_ids (list_stack_resources (aws rt) (REGION s) name) []
            = Ok ids
            ∧ indexed rt (REGION s) name ids ([], path) = Raise e) →
  (cli.retrieve_attribute rt name path s).1 = Raise e
  ∧ STACK_LOOKUP (cli.retrieve_attribute rt name path s).2 = STACK_LOOKUP s.
Proof.
  intros Hc H. rewrite retrieve_uncached by done. simpl.
  destruct H as [->|(ids & -> & ->)]; done.
Qed.

End build_failures.

(** C6: the build is all-or-nothing for the cache.  If the request for a
    page raises, or the request for the details of an enumerated resource
    raises after the resources before it were indexed, the resolver call
    raises that exception and [STACK_LOOKUP] is what it was before the
    call; and whenever any answer of the enumeration or any answer to a
    detail request of an enumerated resource is an exception, the call
    raises and [STACK_LOOKUP] is unchanged. *)
Theorem failed_build_stores_nothing rt s name path :
  STACK_LOOKUP s !! name = None →
  let region := REGION s in
  let r := cli.retrieve_attribute rt name path s in
  (∀ before e after,
     list_stack_resources (aws rt) region name
     = map Ok before ++ Raise e :: after →
     r.1 = Raise e ∧ STACK_LOOKUP r.2 = STACK_LOOKUP s)
  ∧ (∀ pages ids1 idn ids2 locals e,
       listed rt region name pages →
       all_ids pages = ids1 ++ idn :: ids2 →
       indexed rt region name ids1 ([], path) = Ok locals →
       describe_stack_resource (aws rt) region name idn = Raise e →
       r.1 = Raise e ∧ STACK_LOOKUP r.2 = STACK_LOOKUP s)
  ∧ ((∃ e, Raise e ∈ list_stack_resources (aws rt) region name)
     ∨ (∃ pages idn e,
          listed rt region name pages ∧ idn ∈ all_ids pages
          ∧ describe_stack_resource (aws rt) region name idn = Raise e) →
     ∃ e', r.1 = Raise e' ∧ STACK_LOOKUP r.2 = STACK_LOOKUP s).
Proof.
  intros Hc region r. subst r region. split; [|split].
  - intros before e after Hp. apply retrieve_build_raises; [done|].
    left. rewrite Hp. apply paged_ids_first_raise.
  - intros pages ids1 idn ids2 locals e Hp Hids Hix He.
    apply retrieve_build_raises; [done|]. right. exists (all_ids pages).
    rewrite Hp. destruct (paged_ids_all pages []) as [-> _]. split; [done|].
    rewrite Hids. by eapply indexed_first_raise.
  - intros [[e Hin]|(pages & idn & e & Hp & Hin & He)].
    + destruct (paged_ids_some_raise _ e Hin []) as [e' He'].
      exists e'. apply retrieve_build_raises; [done|]. by left.
    + destruct (indexed_some_raise rt (REGION s) name (all_ids pages) idn e
                  He Hin ([], path)) as [e' He'].
      exists e'. apply retrieve_build_raises; [done|]. right.
      exists (all_ids pages). rewrite Hp.
      by destruct (paged_ids_all pages []) as [-> _].
Qed.

Lemma failed_build_stores_nothing_witness :
  let s := fresh Example.region in
  let r := cli.retrieve_attribute Example.rt "Flaky" "Flaky/A" s in
  STACK_LOOKUP s !! "Flaky" = None
  ∧ r.1 = Raise (ClientError "Resource Gone does not exist")
  ∧ STACK_LOOKUP r.2 = STACK_LOOKUP s.
Proof.
  split; [reflexivity|].
  destruct (failed_build_stores_nothing Example.rt (fresh Example.region)
              "Flaky" "Flaky/A" eq_refl) as (_ & Hdetail & _).
  apply (Hdetail [ {| StackResourceSummaries :=
                        map Build_StackResourceSummary ["A"; "Gone"] |} ]
                 ["A"] "Gone" [] ([("Flaky/A", "id1")], "Flaky/A"));
    reflexivity.
Defined.

Section build_success.
Context (rt : runtime).

(** The call that builds the index, when every remote answer arrives and
    every detail record can be indexed. *)
Lemma retrieve_builds name path s pages details :
  STACK_LOOKUP s !! name = None →
  listed rt (REGION s) name pages →
  described rt (REGION s) name (all_ids pages) details →
  Forall (indexable rt) details →
  ∃ q,
    cli.retrieve_attribute rt name path s
    = (cli.lookup rt name (index_of rt details) q,
       stored (logged s (list_calls (REGION s) name 0 (length pages)
                         ++ describe_calls (REGION s) name (all_ids pages)))
              name (index_of rt details)).
Proof.
  intros Hc Hp Hd Hix. rewrite retrieve_uncached by done. simpl.
  rewrite Hp. destruct (paged_ids_all pages []) as [-> ->]. simpl.
  destruct (indexed_ok rt (REGION s) name _ _ Hd Hix ([], path)) as [-> [q ->]].
  exists q. by rewrite firstn_all.
Qed.

Lemma last_with_path_exists details p :
  (∃ d, d ∈ details ∧ cdk_path rt d = Some p) →
  ∃ d, last_with_path rt details p d.
Proof.
  induction details as [|d0 details IH]; intros (d & Hin & Hp).
  - by apply elem_of_nil in Hin.
  - destruct (decide (Exists (λ d', cdk_path rt d' = Some p) details))
      as [Hex|Hex].
    + apply Exists_exists in Hex. destruct (IH Hex) as (d' & b & a & -> & ? & ?).
      exists d', (d0 :: b), a. done.
    + apply not_Exists_Forall in Hex; [|intros ?; apply _].
      apply elem_of_cons in Hin as [->|Hin].
      * exists d0, [], details. done.
      * rewrite Forall_forall in Hex. by destruct (Hex d Hin).
Qed.

End build_success.

(** C3, as amended: an index, once stored, is never built again.  The call
    that finds no index for the stack name and whose remote requests are
    all answered with records that can be indexed makes one request per
    page of the listing and then one detail request per enumerated
    resource, in that order and nothing else, and stores the index; a call
    that finds the index makes no remote call, changes nothing and looks
    the path up in that index, and after any further resolver calls the
    stored index is still the same and a call for that stack name still
    makes no remote call.  (A call whose build raises stores nothing; the
    next call for the name enumerates again.) *)
Theorem index_built_at_most_once rt s name path :
  let r := cli.retrieve_attribute rt name path s in
  let region := REGION s in
  (STACK_LOOKUP s !! name = None →
   ∀ pages details,
     listed rt region name pages →
     described rt region name (all_ids pages) details →
     Forall (indexable rt) details →
     calls r.2 = calls s ++ list_calls region name 0 (length pages)
                         ++ describe_calls region name (all_ids pages)
     ∧ STACK_LOOKUP r.2 = <[name := index_of rt details]> (STACK_LOOKUP s))
  ∧ (∀ stack,
       STACK_LOOKUP s !! name = Some stack →
       r.2 = s
       ∧ r.1 = cli.lookup rt name stack path
       ∧ ∀ cs, let s' := run_calls rt cs s in
               STACK_LOOKUP s' !! name = Some stack
               ∧ ∀ path', (cli.retrieve_attribute rt name path' s').2 = s').
Proof.
  intros r region. subst r region. split.
  - intros Hc pages details Hp Hd Hix.
    destruct (retrieve_builds rt name path s pages details Hc Hp Hd Hix)
      as [q ->]. done.
  - intros stack Hc. rewrite (retrieve_cached rt name path s stack Hc).
    do 2 (split; [done|]). intros cs s'. subst s'.
    pose proof (run_calls_keeps_cached rt cs s name stack Hc) as Hk.
    split; [done|]. intros path'.
    by rewrite (retrieve_cached rt name path' _ stack Hk).
Qed.

Lemma index_built_at_most_once_witness :
  let s := fresh Example.region in
  let r := cli.retrieve_attribute Example.rt "Stack" "Stack/A" s in
  STACK_LOOKUP s !! "Stack" = None
  ∧ calls r.2 = [ListStackResources Example.region "Stack" 0;
                 ListStackResources Example.region "Stack" 1;
                 DescribeStackResource Example.region "Stack" "A";
                 DescribeStackResource Example.region "Stack" "B";
                 DescribeStackResource Example.region "Stack" "C"]
  ∧ STACK_LOOKUP r.2 = <["Stack" := Example.index]> ∅
  ∧ (cli.retrieve_attribute Example.rt "Stack" "Stack/B" r.2).2 = r.2.
Proof.
  split; [reflexivity|].
  destruct (index_built_at_most_once Example.rt (fresh Example.region)
              "Stack" "Stack/A") as [Hbuild _].
  destruct (Hbuild eq_refl
              [ {| StackResourceSummaries :=
                     map Build_StackResourceSummary ["A"; "B"] |};
                {| StackResourceSummaries :=
                     map Build_StackResourceSummary ["C"] |} ]
              [ {| PhysicalResourceId := Some "id1";
                   Metadata := Some (Example.metadata "Stack/A") |};
                {| PhysicalResourceId := Some "id2";
                   Metadata := Some (Example.metadata "Stack/B") |};
                {| PhysicalResourceId := Some "id3"; Metadata := None |} ])
    as [Hcalls Hstored].
  - reflexivity.
  - repeat constructor.
  - repeat constructor; simpl; eauto; intros text [= <-]; reflexivity.
  - split; [exact Hcalls|]. split; [exact Hstored|].
    destruct (index_built_at_most_once Example.rt
                (cli.retrieve_attribute Example.rt "Stack" "Stack/A"
                   (fresh Example.region)).2 "Stack" "Stack/B")
      as [_ Hcached].
    destruct (Hcached Example.index) as [H _]; [|exact H].
    rewrite Hstored. apply lookup_insert_eq.
Defined.

(** C3 as first stated fails when the build raises: the first call for
    [Flaky] stores no index, and the second call for the same stack name
    makes every remote request of the first once more. *)
Lemma failed_build_is_repeated :
  let first := cli.retrieve_attribute Example.rt "Flaky" "Flaky/A"
                 (fresh Example.region) in
  let second := cli.retrieve_attribute Example.rt "Flaky" "Flaky/A" first.2 in
  STACK_LOOKUP first.2 !! "Flaky" = None
  ∧ calls first.2 = [ListStackResources Example.region "Flaky" 0;
                     DescribeStackResource Example.region "Flaky" "A";
                     DescribeStackResource Example.region "Flaky" "Gone"]
  ∧ calls second.2 = calls first.2 ++ calls first.2.
Proof. vm_compute. done. Qed.

(** C7, as amended: when the build goes through, the index stored for the
    stack binds a path [p] to a physical id [v] exactly when the last
    enumerated resource whose detail record carries the structural path
    [p] has the physical id [v]; so its keys are exactly the structural
    paths carried by enumerated resources, and a resource without metadata
    or without the structural-path member adds no key. *)
Theorem built_index_maps_paths rt s name path pages details :
  STACK_LOOKUP s !! name = None →
  listed rt (REGION s) name pages →
  described rt (REGION s) name (all_ids pages) details →
  Forall (indexable rt) details →
  ∃ stack,
    STACK_LOOKUP (cli.retrieve_attribute rt name path s).2 !! name = Some stack
    ∧ (∀ p v, dict_get stack p = Some v
              ↔ ∃ d, last_with_path rt details p d
                     ∧ PhysicalResourceId d = Some v)
    ∧ (∀ p, p ∈ dict_keys stack
            ↔ ∃ d, d ∈ details ∧ cdk_path rt d = Some p).
Proof.
  intros Hc Hp Hd Hix.
  destruct (retrieve_builds rt name path s pages details Hc Hp Hd Hix)
    as [q ->].
  exists (index_of rt details). simpl. split; [apply lookup_insert_eq|].
  assert (Hphys : Forall (λ d, is_Some (PhysicalResourceId d)) details).
  { eapply Forall_impl; [exact Hix|]. by intros d [? _]. }
  assert (Hget : ∀ p v, dict_get (index_of rt details) p = Some v
                        ↔ ∃ d, last_with_path rt details p d
                               ∧ PhysicalResourceId d = Some v).
  { intros p v. unfold index_of. rewrite index_final_binding.
    rewrite (final_binding_last rt details p v Hphys). simpl.
    split; [|by left]. by intros [?|[? _]]. }
  split; [exact Hget|]. intros p. split.
  - intros [v Hv]%dict_get_keys. apply Hget in Hv as (d & (b & a & -> & ? & _) & _).
    exists d. split; [|done]. apply elem_of_app. right. apply elem_of_cons. by left.
  - intros Hex. apply dict_keys_get.
    destruct (last_with_path_exists rt details p Hex) as [d Hlast].
    assert (Hin : d ∈ details).
    { destruct Hlast as (b & a & -> & _). apply elem_of_app. right.
      apply elem_of_cons. by left. }
    rewrite Forall_forall in Hphys. destruct (Hphys d Hin) as [v Hv].
    exists v. apply Hget. eauto.
Qed.

Lemma built_index_maps_paths_witness :
  let s := fresh Example.region in
  STACK_LOOKUP s !! "Stack" = None
  ∧ ∃ stack,
      STACK_LOOKUP (cli.retrieve_attribute Example.rt "Stack" "Stack/A" s).2
        !! "Stack" = Some stack
      ∧ (∀ p, p ∈ dict_keys stack ↔ p = "Stack/A" ∨ p = "Stack/B").
Proof.
  split; [reflexivity|].
  destruct (built_index_maps_paths Example.rt (fresh Example.region)
              "Stack" "Stack/A"
              [ {| StackResourceSummaries :=
                     map Build_StackResourceSummary ["A"; "B"] |};
                {| StackResourceSummaries :=
                     map Build_StackResourceSummary ["C"] |} ]
              [ {| PhysicalResourceId := Some "id1";
                   Metadata := Some (Example.metadata "Stack/A") |};
                {| PhysicalResourceId := Some "id2";
                   Metadata := Some (Example.metadata "Stack/B") |};
                {| PhysicalResourceId := Some "id3"; Metadata := None |} ])
    as (stack & Hstack & _ & Hkeys).
  - reflexivity.
  - reflexivity.
  - repeat constructor.
  - repeat constructor; simpl; eauto; intros text [= <-]; reflexivity.
  - exists stack. split; [exact Hstack|]. intros p. rewrite Hkeys. split.
    + intros (d & Hin & Hp).
      repeat (apply elem_of_cons in Hin as [->|Hin]);
        [left|right| |by apply elem_of_nil in Hin];
        vm_compute in Hp; congruence.
    + intros [->| ->].
      * exists {| PhysicalResourceId := Some "id1";
                  Metadata := Some (Example.metadata "Stack/A") |}.
        split; [|reflexivity]. apply elem_of_cons. by left.
      * exists {| PhysicalResourceId := Some "id2";
                  Metadata := Some (Example.metadata "Stack/B") |}.
        split; [|reflexivity]. apply elem_of_cons. right.
        apply elem_of_cons. by left.
Defined.

(** C7 as first stated fails when two resources carry one path: [X] and
    [Y] of [Twin] both carry [Twin/X]; the index maps the path to the
    physical id of [Y], and the id of [X] is not in it. *)
Lemma shared_path_keeps_last_id :
  let s := (cli.retrieve_attribute Example.rt "Twin" "Twin/X"
              (fresh Example.region)).2 in
  describe_stack_resource Example.remote Example.region "Twin" "X"
  = Example.detail "idX" (Some (Example.metadata "Twin/X"))
  ∧ cdk_path Example.rt {| PhysicalResourceId := Some "idX";
                           Metadata := Some (Example.metadata "Twin/X") |}
    = Some "Twin/X"
  ∧ STACK_LOOKUP s !! "Twin" = Some [("Twin/X", "idY")]
  ∧ dict_get [("Twin/X", "idY")] "Twin/X" ≠ Some "idX".
Proof. vm_compute. done. Qed.

(** ** Determinism (C8) *)

(** The outcome of a call and the cache it leaves depend on the state only
    through the region and the cache, not through what was called before. *)
Lemma retrieve_attribute_deterministic rt name path s1 s2 :
  REGION s1 = REGION s2 →
  STACK_LOOKUP s1 = STACK_LOOKUP s2 →
  (cli.retrieve_attribute rt name path s1).1
  = (cli.retrieve_attribute rt name path s2).1
  ∧ STACK_LOOKUP (cli.retrieve_attribute rt name path s1).2
    = STACK_LOOKUP (cli.retrieve_attribute rt name path s2).2.
Proof.
  intros Hr Hc. destruct (STACK_LOOKUP s1 !! name) as [stack|] eqn:H1.
  - rewrite (retrieve_cached rt name path s1 stack H1).
    rewrite (retrieve_cached rt name path s2 stack); [done|by rewrite <- Hc].
  - rewrite !retrieve_uncached by (done || by rewrite <- Hc). simpl.
    rewrite <- Hr.
    destruct (paged_ids _ _) as [ids|e]; [|done].
    destruct (indexed rt _ _ _ _) as [[stack q]|e]; [|done].
    simpl. by rewrite Hc.
Qed.

(** C8: two resolutions of one reference are meant to give one value.
    Within one pass that starts with an empty cache they do not: the first
    resolution of [cfn://Stack/*] builds the index and returns the scalar
    [id2], the second finds the index and returns the sequence of [id1] and
    [id2].  The remote answers are the same for both. *)
Theorem same_reference_two_values :
  let first := cli.handle_cfn_uri Example.rt "cfn://Stack/*"
                 (fresh Example.region) in
  let second := cli.handle_cfn_uri Example.rt "cfn://Stack/*" first.2 in
  first.1 = Ok (Scalar "id2")
  ∧ second.1 = Ok (Sequence ["id1"; "id2"])
  ∧ first.1 ≠ second.1.
Proof. vm_compute. done. Qed.

(** ** The handler of main.py (C9) *)

(** C9: in [main.py] the name [urlparse] is not bound, so [parse_cfn_uri]
    raises [NameError] for every URI, whatever the library functions would
    have answered, and so does the handler registered for [cfn]: it never
    returns a value. *)
Theorem main_parse_cfn_uri_name_error rt boto uri :
  main.load_name main.module_globals "urlparse" = Raise (NameError "urlparse")
  ∧ main.parse_cfn_uri rt main.module_globals uri
    = Raise (NameError "urlparse")
  ∧ main.handle_cfn_uri rt boto main.module_globals uri
    = Raise (NameError "urlparse").
Proof. done. Qed.

(** Binding the name as [cli.py] does, to the function [urlparse],
    changes the exception and nothing else; only with the module
    [urllib.parse] under that name would the rest of the parser run. *)
Example main_parse_cfn_uri_other_bindings :
  main.parse_cfn_uri Example.rt
    (("urlparse", main.UrllibParseFunction "urlparse") :: main.module_globals)
    "cfn://stack@eu-west-1/Bucket/Arn"
  = Raise (AttributeError "urldefrag")
  ∧ main.parse_cfn_uri Example.rt
      (("urlparse", main.UrllibParse) :: main.module_globals)
      "cfn://stack@eu-west-1/Bucket/Arn"
    = Ok ("stack", "Bucket", Some "Arn", Some "eu-west-1").
Proof. split; reflexivity. Qed.

(** ** The region (C10) *)

Section region.
Context (rt : runtime).

Lemma retrieve_region name path s :
  let s' := (cli.retrieve_attribute rt name path s).2 in
  REGION s' = REGION s
  ∧ ∃ cs, calls s' = calls s ++ cs
          ∧ Forall (λ c, call_region c = REGION s) cs.
Proof.
  assert (Hl : ∀ from n, Forall (λ c, call_region c = REGION s)
                           (list_calls (REGION s) name from n)).
  { intros. unfold list_calls. by apply Forall_map, Forall_forall. }
  assert (Hd : ∀ ids, Forall (λ c, call_region c = REGION s)
                        (describe_calls (REGION s) name ids)).
  { intros. unfold describe_calls. by apply Forall_map, Forall_forall. }
  destruct (STACK_LOOKUP s !! name) as [stack|] eqn:Hc; simpl.
  - rewrite (retrieve_cached rt name path s stack Hc). simpl.
    split; [done|]. exists []. by rewrite app_nil_r.
  - rewrite retrieve_uncached by done. simpl.
    destruct (paged_ids _ _) as [ids|e]; [|by eauto].
    destruct (indexed rt _ _ _ _) as [[stack q]|e]; simpl;
      (split; [done|]); eexists; (split; [done|]); by apply Forall_app.
Qed.

Lemma run_calls_region cs :
  ∀ s region,
    REGION s = region →
    Forall (λ c, call_region c = region) (calls s) →
    REGION (run_calls rt cs s) = region
    ∧ Forall (λ c, call_region c = region) (calls (run_calls rt cs s)).
Proof.
  induction cs as [|[name path] cs IH]; intros s region Hr Hcalls; simpl.
  - done.
  - destruct (retrieve_region name path s) as (Hr' & new & Hnew & Hall).
    apply IH; [congruence|]. rewrite Hnew. apply Forall_app. split; [done|].
    by rewrite <- Hr.
Qed.

End region.

(** C10: importing [cli.py] raises when [AWS_REGION] is not in the
    environment; when it is, the import succeeds with [REGION] set to its
    value, and after any sequence of resolver calls [REGION] still has
    that value and every remote call that was made went to that region. *)
Theorem region_is_fixed_at_import rt (environ : gmap string string) :
  match environ !! "AWS_REGION" with
  | None => cli.load environ = Raise (PyException "AWS_REGION not set")
  | Some region =>
      ∃ s0, cli.load environ = Ok s0
            ∧ REGION s0 = region
            ∧ ∀ cs, REGION (run_calls rt cs s0) = region
                    ∧ Forall (λ c, call_region c = region)
                             (calls (run_calls rt cs s0))
  end.
Proof.
  unfold cli.load. destruct (environ !! "AWS_REGION") as [region|]; [|done].
  eexists. split; [done|]. split; [done|]. intros cs.
  by apply run_calls_region.
Qed.

(** * Further properties of the resolver *)

(** ** What a call leaves alone *)

(** A resolver call for one stack name leaves the cache entry of every
    other stack name as it was, present or absent, does not change
    [REGION], and only appends to the log of remote calls; every call it
    appends asks about the stack name it was given. *)
Theorem retrieve_attribute_frame rt name path s :
  let s' := (cli.retrieve_attribute rt name path s).2 in
  (∀ k, k ≠ name → STACK_LOOKUP s' !! k = STACK_LOOKUP s !! k)
  ∧ REGION s' = REGION s
  ∧ ∃ cs, calls s' = calls s ++ cs
          ∧ Forall (λ c, call_stack c = name) cs.
Proof.
  assert (Hl : ∀ from n, Forall (λ c, call_stack c = name)
                           (list_calls (REGION s) name from n)).
  { intros. unfold list_calls. by apply Forall_map, Forall_forall. }
  assert (Hd : ∀ ids, Forall (λ c, call_stack c = name)
                        (describe_calls (REGION s) name ids)).
  { intros. unfold describe_calls. by apply Forall_map, Forall_forall. }
  destruct (STACK_LOOKUP s !! name) as [stack|] eqn:Hc; simpl.
  - rewrite (retrieve_cached rt name path s stack Hc). simpl.
    do 2 (split; [done|]). exists []. by rewrite app_nil_r.
  - rewrite retrieve_uncached by done. simpl.
    destruct (paged_ids _ _) as [ids|e]; [|by eauto 10].
    destruct (indexed rt _ _ _ _) as [[stack q]|e]; simpl.
    + split; [intros k Hk; by rewrite lookup_insert_ne|].
      split; [done|]. eexists. split; [done|]. by apply Forall_app.
    + do 2 (split; [done|]). eexists. split; [done|]. by apply Forall_app.
Qed.

(** ** Remote calls of a build that fails *)

Section failing_build_calls.
Context (rt : runtime).

Lemma pages_fetched_first_raise before e after :
  pages_fetched (map Ok before ++ Raise e :: after) = S (length before).
Proof. induction before as [|p before IH]; simpl; [done|by rewrite IH]. Qed.

Lemma details_fetched_first_raise region name ids1 idn ids2 e :
  describe_stack_resource (aws rt) region name idn = Raise e →
  ∀ locals locals',
    indexed rt region name ids1 locals = Ok locals' →
    details_fetched rt region name (ids1 ++ idn :: ids2) locals
    = S (length ids1).
Proof.
  intros He. induction ids1 as [|i ids1 IH]; intros locals locals'; simpl.
  - intros _. by rewrite He.
  - destruct (index_answer rt locals _) as [l|e0]; [|done].
    intros H. by rewrite (IH l locals').
Qed.

End failing_build_calls.

(** When the request for a page of the listing raises, the call has made
    the page requests up to that one and no detail request at all; when
    the detail request for an enumerated resource raises after the ones
    before it were indexed, the call has made every page request and the
    detail requests up to that one, and none for the resources after
    it. *)
Theorem failed_build_remote_calls rt s name path :
  STACK_LOOKUP s !! name = None →
  let region := REGION s in
  let r := cli.retrieve_attribute rt name path s in
  (∀ before e after,
     list_stack_resources (aws rt) region name
     = map Ok before ++ Raise e :: after →
     calls r.2 = calls s ++ list_calls region name 0 (S (length before)))
  ∧ (∀ pages ids1 idn ids2 locals e,
       listed rt region name pages →
       all_ids pages = ids1 ++ idn :: ids2 →
       indexed rt region name ids1 ([], path) = Ok locals →
       describe_stack_resource (aws rt) region name idn = Raise e →
       calls r.2 = calls s ++ list_calls region name 0 (length pages)
                           ++ describe_calls region name (ids1 ++ [idn])).
Proof.
  intros Hc region r. subst r region. split.
  - intros before e after Hp. rewrite retrieve_uncached by done. simpl.
    rewrite Hp, paged_ids_first_raise, pages_fetched_first_raise. done.
  - intros pages ids1 idn ids2 locals e Hp Hids Hix He.
    rewrite retrieve_uncached by done. simpl. unfold listed in Hp.
    rewrite !Hp. destruct (paged_ids_all pages []) as [-> ->]. simpl.
    rewrite Hids.
    rewrite (indexed_first_raise rt _ _ ids1 idn ids2 e He _ _ Hix).
    rewrite (details_fetched_first_raise rt _ _ ids1 idn ids2 e He _ _ Hix).
    assert (Ht : take (S (length ids1)) (ids1 ++ idn :: ids2) = ids1 ++ [idn]).
    { rewrite (cons_middle idn ids1 ids2), app_assoc.
      apply take_app_length'. rewrite length_app. simpl. lia. }
    simpl. by rewrite Ht.
Qed.

Lemma failed_build_remote_calls_witness :
  let s := fresh Example.region in
  let r := cli.retrieve_attribute Example.rt "Flaky" "Flaky/A" s in
  STACK_LOOKUP s !! "Flaky" = None
  ∧ calls r.2 = [ListStackResources Example.region "Flaky" 0;
                 DescribeStackResource Example.region "Flaky" "A";
                 DescribeStackResource Example.region "Flaky" "Gone"].
Proof.
  split; [reflexivity|].
  destruct (failed_build_remote_calls Example.rt (fresh Example.region)
              "Flaky" "Flaky/A" eq_refl) as [_ Hdetail].
  apply (Hdetail [ {| StackResourceSummaries :=
                        map Build_StackResourceSummary ["A"; "Gone"] |} ]
                 ["A"] "Gone" [] ([("Flaky/A", "id1")], "Flaky/A")
                 (ClientError "Resource Gone does not exist"));
    reflexivity.
Defined.

Lemma first_call_ignores_path_witness :
  let s := fresh Example.region in
  STACK_LOOKUP s !! "Stack" = None
  ∧ cli.retrieve_attribute Example.rt "Stack" "Stack/A" s
    = cli.retrieve_attribute Example.rt "Stack" "Stack/Nope" s.
Proof.
  split; [reflexivity|].
  apply (first_call_ignores_path Example.rt "Stack" "Stack/A" "Stack/Nope"
           (fresh Example.region) ["A"; "B"; "C"] Example.index "Stack/B");
    [reflexivity..|discriminate].
Defined.

(** ** A stack none of whose resources carries a structural path *)

Section empty_index.
Context (rt : runtime).

Lemma indexed_without_paths region name ids details :
  described rt region name ids details →
  Forall (indexable rt) details →
  Forall (λ d, cdk_path rt d = None) details →
  ∀ locals,
    indexed rt region name ids locals = Ok locals
    ∧ details_fetched rt region name ids locals = length ids.
Proof.
  induction 1 as [|idn d ids details Hd _ IH]; intros Hix Hno locals; simpl.
  - done.
  - apply Forall_cons in Hix as [[[v Hv] Hmeta] Hix].
    apply Forall_cons in Hno as [Hnone Hno]. rewrite Hd.
    assert (Hans : index_answer rt locals (Ok {| StackResourceDetail_ := d |})
                   = Ok locals).
    { unfold index_answer, cdk_path in *. simpl. rewrite Hv. simpl.
      destruct (Metadata d) as [text|]; [|done].
      specialize (Hmeta text eq_refl).
      destruct (json_loads rt text) as [doc|e]; [|done]. simpl.
      by rewrite Hnone. }
    rewrite Hans. destruct (IH Hix Hno locals) as [-> ->]. done.
Qed.

Lemma lookup_in_empty_index name path :
  cli.lookup rt name [] path
  = Raise (if cli.has_wildcards path then NoMatchFound path name
           else PathNotFound path name).
Proof. unfold cli.lookup. by destruct (cli.has_wildcards path). Qed.

End empty_index.

(** When the remote answers every request and no enumerated resource
    carries a structural path (in particular when the stack has no
    resources), the call raises the not-found exception for the path it was
    given, and yet stores the empty index; every later call for the stack
    name raises in the same way without any remote call. *)
Theorem empty_index_is_cached rt s name path pages details :
  STACK_LOOKUP s !! name = None →
  listed rt (REGION s) name pages →
  described rt (REGION s) name (all_ids pages) details →
  Forall (indexable rt) details →
  Forall (λ d, cdk_path rt d = None) details →
  let r := cli.retrieve_attribute rt name path s in
  r.1 = Raise (if cli.has_wildcards path then NoMatchFound path name
               else PathNotFound path name)
  ∧ STACK_LOOKUP r.2 !! name = Some []
  ∧ ∀ path',
      cli.retrieve_attribute rt name path' r.2
      = (Raise (if cli.has_wildcards path' then NoMatchFound path' name
                else PathNotFound path' name), r.2).
Proof.
  intros Hc Hp Hd Hix Hno r.
  assert (Hr : r = (cli.lookup rt name [] path,
                    stored (logged s
                              (list_calls (REGION s) name 0 (length pages)
                               ++ describe_calls (REGION s) name
                                    (all_ids pages))) name [])).
  { subst r. rewrite retrieve_uncached by done. simpl. unfold listed in Hp.
    rewrite !Hp. destruct (paged_ids_all pages []) as [-> ->]. simpl.
    destruct (indexed_without_paths rt _ _ _ _ Hd Hix Hno ([], path))
      as [-> ->].
    by rewrite firstn_all. }
  rewrite Hr. simpl. split; [apply lookup_in_empty_index|].
  split; [apply lookup_insert_eq|]. intros path'.
  rewrite (retrieve_cached rt name path' _ []) by apply lookup_insert_eq.
  by rewrite lookup_in_empty_index.
Qed.

Lemma empty_index_is_cached_witness :
  let s := fresh Example.region in
  let r := cli.retrieve_attribute Plain.rt "Plain" "Plain/Queue" s in
  STACK_LOOKUP s !! "Plain" = None
  ∧ r.1 = Raise (PathNotFound "Plain/Queue" "Plain")
  ∧ STACK_LOOKUP r.2 !! "Plain" = Some []
  ∧ cli.retrieve_attribute Plain.rt "Plain" "Plain/*" r.2
    = (Raise (NoMatchFound "Plain/*" "Plain"), r.2).
Proof.
  split; [reflexivity|].
  destruct (empty_index_is_cached Plain.rt (fresh Example.region)
              "Plain" "Plain/Queue"
              [ {| StackResourceSummaries :=
                     map Build_StackResourceSummary ["Queue"; "Topic"] |} ]
              [ {| PhysicalResourceId := Some "queue-1"; Metadata := None |};
                {| PhysicalResourceId := Some "topic-1"; Metadata := None |} ])
    as (Hraise & Hstored & Hlater).
  - reflexivity.
  - reflexivity.
  - repeat constructor.
  - repeat constructor; simpl; eauto; by intros text [=].
  - repeat constructor.
  - split; [exact Hraise|]. split; [exact Hstored|]. apply (Hlater "Plain/*").
Defined.

(** ** The order of the index, and of a glob result *)

Section index_order.
Context (rt : runtime).

Lemma add_key_in seen k : k ∈ seen → add_key seen k = seen.
Proof. intros H. unfold add_key. by rewrite bool_decide_eq_true_2. Qed.

Lemma add_key_notin seen k : k ∉ seen → add_key seen k = seen ++ [k].
Proof. intros H. unfold add_key. by rewrite bool_decide_eq_false_2. Qed.

Lemma dict_keys_set d k v :
  dict_keys (dict_set d k v) = add_key (dict_keys d) k.
Proof.
  induction d as [|[k' v'] d IH].
  - rewrite add_key_notin; [done|]. by intros ?%elem_of_nil.
  - cbn [dict_set]. destruct (String.eqb k' k) eqn:E.
    + apply String.eqb_eq in E. subst.
      rewrite add_key_in; [done|]. apply elem_of_cons. by left.
    + apply String.eqb_neq in E.
      change (k' :: dict_keys (dict_set d k v)
              = add_key (k' :: dict_keys d) k).
      rewrite IH. destruct (decide (k ∈ dict_keys d)) as [Hin|Hin].
      * rewrite !add_key_in; [done| |done]. apply elem_of_cons. by right.
      * rewrite !add_key_notin; [done| |done].
        intros [?|?]%elem_of_cons; by subst.
Qed.

Lemma add_key_NoDup seen k : NoDup seen → NoDup (add_key seen k).
Proof.
  intros H. destruct (decide (k ∈ seen)) as [B|B]; [by rewrite add_key_in|].
  rewrite add_key_notin by done. apply NoDup_app. split; [done|].
  split; [|apply NoDup_singleton].
  intros x Hx ->%list_elem_of_singleton. done.
Qed.

Lemma dict_set_new d k v :
  k ∉ dict_keys d → dict_set d k v = d ++ [(k, v)].
Proof.
  induction d as [|[k' v'] d IH]; simpl; intros Hk; [done|].
  destruct (String.eqb k' k) eqn:E.
  - apply String.eqb_eq in E. subst. destruct Hk. apply elem_of_cons. by left.
  - rewrite IH; [done|]. intros ?. apply Hk. apply elem_of_cons. by right.
Qed.

Lemma index_as_entries details :
  ∀ stack, foldl (index_entry rt) stack details
           = foldl (λ d e, dict_set d e.1 e.2) stack (entries rt details).
Proof.
  induction details as [|d details IH]; intros stack; simpl; [done|].
  rewrite IH. unfold entries. simpl. unfold index_entry, entry.
  destruct (cdk_path rt d) as [p|]; [|done].
  destruct (PhysicalResourceId d) as [v|]; done.
Qed.

Lemma index_keys (es : list (string * string)) :
  ∀ stack, dict_keys (foldl (λ d e, dict_set d e.1 e.2) stack es)
           = foldl add_key (dict_keys stack) (map fst es).
Proof.
  induction es as [|[p v] es IH]; intros stack; simpl; [done|].
  by rewrite IH, dict_keys_set.
Qed.

Lemma fold_add_key_NoDup l :
  ∀ seen, NoDup seen → NoDup (foldl add_key seen l).
Proof.
  induction l as [|k l IH]; intros seen H; simpl; [done|].
  by apply IH, add_key_NoDup.
Qed.

Lemma index_of_distinct (es : list (string * string)) :
  ∀ stack, NoDup (dict_keys stack ++ map fst es) →
           foldl (λ d e, dict_set d e.1 e.2) stack es = stack ++ es.
Proof.
  induction es as [|[p v] es IH]; intros stack H; simpl.
  - by rewrite app_nil_r.
  - simpl in H. rewrite dict_set_new.
    + rewrite IH; [by rewrite <- app_assoc|].
      unfold dict_keys in *. rewrite map_app. simpl. by rewrite <- app_assoc.
    + apply NoDup_app in H as (_ & H & _). intros Hin.
      apply (H p Hin). apply elem_of_cons. by left.
Qed.

Lemma dict_get_NoDup d k v :
  NoDup (dict_keys d) → (k, v) ∈ d → dict_get d k = Some v.
Proof.
  induction d as [|[k' v'] d IH]; simpl; intros Hnd Hin.
  - by apply elem_of_nil in Hin.
  - apply NoDup_cons in Hnd as [Hk' Hnd].
    apply elem_of_cons in Hin as [[= -> ->]|Hin].
    + by rewrite String.eqb_refl.
    + destruct (String.eqb k' k) eqn:E; [|by apply IH].
      apply String.eqb_eq in E. subst. destruct Hk'.
      apply list_elem_of_fmap. by exists (k, v).
Qed.

(** With distinct keys, the values the glob loop collects are those of the
    matching entries, in the order of the entries. *)
Lemma glob_values d pattern :
  NoDup (dict_keys d) →
  ∀ l ids,
    (∀ e, e ∈ l → e ∈ d) →
    Forall2 (λ k v, dict_get d k = Some v)
            (filter (λ k, fnmatch rt k pattern = true) (map fst l)) ids →
    ids = map snd (filter (λ e, fnmatch rt e.1 pattern = true) l).
Proof.
  intros Hnd. induction l as [|[k v] l IH]; intros ids Hin; simpl.
  - by intros ->%Forall2_nil_inv_l.
  - rewrite !filter_cons. simpl.
    assert (Hl : ∀ e, e ∈ l → e ∈ d).
    { intros e He. apply Hin. apply elem_of_cons. by right. }
    destruct (decide (fnmatch rt k pattern = true)) as [Hm|Hm].
    + intros (v' & ids' & Hv' & Hall & ->)%Forall2_cons_inv_l.
      rewrite (dict_get_NoDup d k v) in Hv'.
      * simplify_eq. simpl. f_equal. by apply IH.
      * done.
      * apply Hin. apply elem_of_cons. by left.
    + by apply IH.
Qed.

End index_order.

Lemma built_index_entries rt s name path pages details :
  STACK_LOOKUP s !! name = None →
  listed rt (REGION s) name pages →
  described rt (REGION s) name (all_ids pages) details →
  Forall (indexable rt) details →
  let stack := foldl (λ d e, dict_set d e.1 e.2) [] (entries rt details) in
  STACK_LOOKUP (cli.retrieve_attribute rt name path s).2 !! name = Some stack
  ∧ dict_keys stack = first_occurrences (map fst (entries rt details))
  ∧ (NoDup (map fst (entries rt details)) → stack = entries rt details).
Proof.
  intros Hc Hp Hd Hix stack. subst stack.
  destruct (retrieve_builds rt name path s pages details Hc Hp Hd Hix)
    as [q ->].
  simpl. unfold index_of. rewrite index_as_entries.
  split; [apply lookup_insert_eq|]. split; [by rewrite index_keys|].
  intros Hnd. by rewrite index_of_distinct.
Qed.

(** The index stored by a build that goes through has each key once, in
    the order in which the structural paths first occur among the
    enumerated resources; when the paths are pairwise distinct the index is
    the list of (path, physical id) pairs in enumeration order. *)
Theorem built_index_order rt s name path pages details :
  STACK_LOOKUP s !! name = None →
  listed rt (REGION s) name pages →
  described rt (REGION s) name (all_ids pages) details →
  Forall (indexable rt) details →
  ∃ stack,
    STACK_LOOKUP (cli.retrieve_attribute rt name path s).2 !! name = Some stack
    ∧ NoDup (dict_keys stack)
    ∧ dict_keys stack = first_occurrences (map fst (entries rt details))
    ∧ (NoDup (map fst (entries rt details)) → stack = entries rt details).
Proof.
  intros Hc Hp Hd Hix.
  destruct (built_index_entries rt s name path pages details Hc Hp Hd Hix)
    as (Hstack & Hkeys & Heq).
  eexists. split; [exact Hstack|]. split; [|split; [exact Hkeys|exact Heq]].
  rewrite Hkeys. apply fold_add_key_NoDup. constructor.
Qed.

Lemma built_index_order_witness :
  let s := fresh Example.region in
  STACK_LOOKUP s !! "Stack" = None
  ∧ ∃ stack,
      STACK_LOOKUP (cli.retrieve_attribute Example.rt "Stack" "Stack/A" s).2
        !! "Stack" = Some stack
      ∧ dict_keys stack = ["Stack/A"; "Stack/B"].
Proof.
  split; [reflexivity|].
  destruct (built_index_order Example.rt (fresh Example.region)
              "Stack" "Stack/A"
              [ {| StackResourceSummaries :=
                     map Build_StackResourceSummary ["A"; "B"] |};
                {| StackResourceSummaries :=
                     map Build_StackResourceSummary ["C"] |} ]
              [ {| PhysicalResourceId := Some "id1";
                   Metadata := Some (Example.metadata "Stack/A") |};
                {| PhysicalResourceId := Some "id2";
                   Metadata := Some (Example.metadata "Stack/B") |};
                {| PhysicalResourceId := Some "id3"; Metadata := None |} ])
    as (stack & Hstack & _ & Hkeys & _).
  - reflexivity.
  - reflexivity.
  - repeat constructor.
  - repeat constructor; simpl; eauto; intros text [= <-]; reflexivity.
  - exists stack. split; [exact Hstack|]. rewrite Hkeys. reflexivity.
Defined.

(** After a build that goes through on resources with pairwise distinct
    structural paths, a glob reference to the stack resolves to the
    physical ids of the resources whose path matches, in the order in which
    the resources were enumerated; it raises when there is none. *)
Theorem glob_after_build rt s name path pages details pattern :
  STACK_LOOKUP s !! name = None →
  listed rt (REGION s) name pages →
  described rt (REGION s) name (all_ids pages) details →
  Forall (indexable rt) details →
  NoDup (map fst (entries rt details)) →
  cli.has_wildcards pattern = true →
  let s1 := (cli.retrieve_attribute rt name path s).2 in
  (cli.retrieve_attribute rt name pattern s1).1
  = match map snd (filter (λ e, fnmatch rt e.1 pattern = true)
                          (entries rt details)) with
    | [] => Raise (NoMatchFound pattern name)
    | ids => Ok (Sequence ids)
    end.
Proof.
  intros Hc Hp Hd Hix Hnd Hw s1.
  destruct (built_index_entries rt s name path pages details Hc Hp Hd Hix)
    as (Hstack & _ & Heq).
  rewrite (Heq Hnd) in Hstack. fold s1 in Hstack.
  rewrite (retrieve_cached rt name pattern s1 _ Hstack). simpl.
  destruct (lookup_glob rt name (entries rt details) pattern Hw)
    as (ids & Hall & ->).
  rewrite (glob_values rt (entries rt details) pattern Hnd
             (entries rt details) ids); [|done|exact Hall].
  by destruct (map snd _).
Qed.

Lemma glob_after_build_witness :
  let s := fresh Example.region in
  let s1 := (cli.retrieve_attribute Example.rt "Stack" "Stack/A" s).2 in
  STACK_LOOKUP s !! "Stack" = None
  ∧ cli.has_wildcards "Stack/[AB]" = true
  ∧ (cli.retrieve_attribute Example.rt "Stack" "Stack/[AB]" s1).1
    = Ok (Sequence ["id1"; "id2"]).
Proof.
  split; [reflexivity|]. split; [reflexivity|].
  apply (glob_after_build Example.rt (fresh Example.region)
           "Stack" "Stack/A"
           [ {| StackResourceSummaries :=
                  map Build_StackResourceSummary ["A"; "B"] |};
             {| StackResourceSummaries :=
                  map Build_StackResourceSummary ["C"] |} ]
           [ {| PhysicalResourceId := Some "id1";
                Metadata := Some (Example.metadata "Stack/A") |};
             {| PhysicalResourceId := Some "id2";
                Metadata := Some (Example.metadata "Stack/B") |};
             {| PhysicalResourceId := Some "id3"; Metadata := None |} ]
           "Stack/[AB]").
  - reflexivity.
  - reflexivity.
  - repeat constructor.
  - repeat constructor; simpl; eauto; intros text [= <-]; reflexivity.
  - apply (bool_decide_unpack _). by vm_compute.
  - reflexivity.
Defined.

(** ** References and the wildcard [?] *)

Section url_characters.

Lemma contains_of_list c l : Str.contains c (Str.of_list l) = Posix.mem c l.
Proof.
  unfold Posix.mem. induction l as [|a l IH]; simpl; [done|].
  rewrite IH. by rewrite (Ascii.eqb_sym a c).
Qed.

Lemma contains_append c s1 s2 :
  Str.contains c (s1 +:+ s2) = Str.contains c s1 || Str.contains c s2.
Proof.
  induction s1 as [|a s1 IH]; simpl; [done|]. rewrite IH. by rewrite orb_assoc.
Qed.

Lemma split_first_app c l pre post :
  Posix.split_first c l = Some (pre, post) →
  l = pre ++ c :: post ∧ Posix.mem c pre = false.
Proof.
  revert pre post. induction l as [|a l IH]; intros pre post; simpl; [done|].
  destruct (Ascii.eqb a c) eqn:E.
  - intros [= <- <-]. apply Ascii.eqb_eq in E. by subst.
  - destruct (Posix.split_first c l) as [[pre' post']|]; [|done].
    intros [= <- <-]. destruct (IH pre' post' eq_refl) as [-> Hm].
    split; [done|]. unfold Posix.mem in *. simpl.
    by rewrite (Ascii.eqb_sym c a), E, Hm.
Qed.

Lemma split_first_none c l :
  Posix.split_first c l = None → Posix.mem c l = false.
Proof.
  induction l as [|a l IH]; simpl; [done|].
  destruct (Ascii.eqb a c) eqn:E; [done|].
  destruct (Posix.split_first c l) as [[pre post]|]; [done|].
  intros _. unfold Posix.mem in *. simpl.
  by rewrite (Ascii.eqb_sym c a), E, IH.
Qed.

Lemma mem_app c l1 l2 :
  Posix.mem c (l1 ++ l2) = Posix.mem c l1 || Posix.mem c l2.
Proof. unfold Posix.mem. apply existsb_app. Qed.

(** What [split_opt] keeps has no separator, and no character that the
    text did not have. *)
Lemma split_opt_kept c l kept rest :
  Posix.split_opt c l = (kept, rest) →
  Posix.mem c kept = false
  ∧ ∀ d, Posix.mem d l = false → Posix.mem d kept = false.
Proof.
  unfold Posix.split_opt.
  destruct (Posix.split_first c l) as [[pre post]|] eqn:E.
  - intros [= <- <-]. destruct (split_first_app c l pre post E) as [-> Hm].
    split; [done|]. intros d. rewrite mem_app. by intros [-> _]%orb_false_elim.
  - intros [= <- <-]. split; [by apply split_first_none|done].
Qed.

Lemma splitnetloc_domain l domain rest :
  Posix.splitnetloc l = (domain, rest) →
  Posix.mem "?" domain = false ∧ Posix.mem "#" domain = false.
Proof.
  revert domain rest. induction l as [|c l IH]; intros domain rest; simpl.
  - by intros [= <- <-].
  - destruct (Ascii.eqb c "/" || Ascii.eqb c "?" || Ascii.eqb c "#") eqn:E.
    + by intros [= <- <-].
    + destruct (Posix.splitnetloc l) as [d r]. intros [= <- <-].
      destruct (IH d r eq_refl) as [H1 H2].
      apply orb_false_elim in E as [[_ E1]%orb_false_elim E2].
      unfold Posix.mem in *. cbn [existsb].
      rewrite (Ascii.eqb_sym "?" c), (Ascii.eqb_sym "#" c), E1, E2, H1, H2.
      done.
Qed.

Lemma urlsplit_no_query_mark url parts :
  Posix.urlsplit url = Ok parts →
  Str.contains "?" (netloc parts) = false
  ∧ Str.contains "#" (netloc parts) = false
  ∧ Str.contains "?" (path parts) = false
  ∧ Str.contains "#" (path parts) = false.
Proof.
  unfold Posix.urlsplit, Posix.urlsplit_list.
  destruct (Posix.split_scheme _) as [sch url1].
  destruct (Posix.split_authority url1) as [[nl url2]|e] eqn:Ha; [|done].
  simpl.
  destruct (Posix.split_opt "#" url2) as [url3 frag] eqn:Hf.
  destruct (Posix.split_opt "?" url3) as [url4 qry] eqn:Hq.
  simpl. intros [= <-]. simpl. rewrite !contains_of_list.
  destruct (split_opt_kept _ _ _ _ Hf) as [Hf1 _].
  destruct (split_opt_kept _ _ _ _ Hq) as [Hq1 Hq2].
  assert (Hnl : Posix.mem "?" nl = false ∧ Posix.mem "#" nl = false).
  { unfold Posix.split_authority in Ha.
    destruct url1 as [|c1 [|c2 url']]; try by simplify_eq.
    destruct (Ascii.eqb c1 "/" && Ascii.eqb c2 "/"); [|by simplify_eq].
    destruct (Posix.splitnetloc url') as [d r] eqn:Hd.
    destruct (xorb _ _); [done|]. simplify_eq.
    by apply (splitnetloc_domain url' nl url2). }
  destruct Hnl as [? ?]. auto.
Qed.

End url_characters.

(** With [urllib.parse] as on CPython, the locator that the parser hands to
    the resolver never contains [?] or [#]: a question mark in a reference
    starts the query, which is dropped.  So of the three wildcard
    characters only [*] and [[] can make a reference a glob. *)
Theorem reference_locator_has_no_question_mark remote uri name locator :
  cli.parse_cfn_uri (Posix.runtime_of remote) uri = Ok (name, locator) →
  Str.contains "?" locator = false
  ∧ Str.contains "#" locator = false
  ∧ cli.has_wildcards locator
    = Str.contains "*" locator || Str.contains "[" locator.
Proof.
  unfold cli.parse_cfn_uri. simpl.
  destruct (Posix.urldefrag uri) as [[base frag]|e]; [|done]. simpl.
  destruct (Posix.urlsplit base) as [parts|e] eqn:Hs; [|done]. simpl.
  destruct (negb _); [done|]. intros [= <- <-].
  destruct (urlsplit_no_query_mark base parts Hs) as (H1 & H2 & H3 & H4).
  assert (Hq : Str.contains "?" (netloc parts +:+ path parts) = false).
  { by rewrite contains_append, H1, H3. }
  split; [exact Hq|]. split; [by rewrite contains_append, H2, H4|].
  unfold cli.has_wildcards. rewrite Hq. by rewrite orb_false_r.
Qed.

Lemma reference_locator_has_no_question_mark_witness :
  cli.parse_cfn_uri (Posix.runtime_of Example.remote) "cfn://Stack/Stack/?"
  = Ok ("Stack", "Stack/Stack/")
  ∧ cli.has_wildcards "Stack/Stack/" = false.
Proof.
  split; [reflexivity|].
  destruct (reference_locator_has_no_question_mark Example.remote
              "cfn://Stack/Stack/?" "Stack" "Stack/Stack/" eq_refl)
    as (_ & _ & ->).
  reflexivity.
Defined.

(** ** Splitting and joining strings *)

Section split_join.

Lemma of_list_app l1 l2 :
  Str.of_list (l1 ++ l2) = Str.of_list l1 +:+ Str.of_list l2.
Proof.
  unfold Str.of_list. induction l1 as [|a l1 IH]; simpl; [done|].
  by rewrite IH.
Qed.

Lemma of_to_list s : Str.of_list (Str.to_list s) = s.
Proof. apply string_of_list_ascii_of_string. Qed.

Lemma to_of_list l : Str.to_list (Str.of_list l) = l.
Proof. apply list_ascii_of_string_of_list_ascii. Qed.

Lemma to_list_append s1 s2 :
  Str.to_list (s1 +:+ s2) = Str.to_list s1 ++ Str.to_list s2.
Proof.
  unfold Str.to_list. induction s1 as [|a s1 IH]; simpl; [done|].
  by rewrite IH.
Qed.

Lemma count_of_list c a l :
  Str.count c (Str.of_list (a :: l))
  = (if Ascii.eqb a c then 1 else 0) + Str.count c (Str.of_list l).
Proof. done. Qed.

Lemma split_list_length sep l :
  ∀ cur, length (Str.split_list sep cur l) = S (Str.count sep (Str.of_list l)).
Proof.
  induction l as [|a l IH]; intros cur; [done|].
  rewrite count_of_list. cbn [Str.split_list].
  destruct (Ascii.eqb a sep); simpl; by rewrite IH.
Qed.

Lemma split_length sep s :
  length (Str.split sep s) = S (Str.count sep s).
Proof. unfold Str.split. by rewrite split_list_length, of_to_list. Qed.

Lemma join_cons sep piece pieces :
  pieces ≠ [] →
  Str.join sep (piece :: pieces) = piece +:+ String sep (Str.join sep pieces).
Proof. by destruct pieces. Qed.

Lemma split_list_join sep l :
  ∀ cur, Str.join sep (Str.split_list sep cur l) = Str.of_list (rev cur ++ l).
Proof.
  induction l as [|a l IH]; intros cur; cbn [Str.split_list].
  - by rewrite app_nil_r.
  - destruct (Ascii.eqb a sep) eqn:E.
    + apply Ascii.eqb_eq in E. subst a. rewrite join_cons.
      * rewrite IH. simpl. by rewrite of_list_app.
      * intros H. pose proof (split_list_length sep l []) as Hl.
        by rewrite H in Hl.
    + rewrite IH. simpl. by rewrite <- app_assoc.
Qed.

(** Joining the pieces of a split gives the string back. *)
Lemma split_join sep s : Str.join sep (Str.split sep s) = s.
Proof. unfold Str.split. rewrite split_list_join. apply of_to_list. Qed.

Lemma mem_rev c l : Posix.mem c (rev l) = Posix.mem c l.
Proof.
  induction l as [|a l IH]; [done|]. cbn [rev]. rewrite mem_app, IH.
  unfold Posix.mem. cbn [existsb]. by rewrite orb_false_r, orb_comm.
Qed.

Lemma split_list_pieces sep l :
  ∀ cur, Posix.mem sep cur = false →
         Forall (λ piece, Str.contains sep piece = false)
                (Str.split_list sep cur l).
Proof.
  induction l as [|a l IH]; intros cur Hcur; cbn [Str.split_list].
  - constructor; [|done]. by rewrite contains_of_list, mem_rev.
  - destruct (Ascii.eqb a sep) eqn:E.
    + constructor; [|by apply IH]. by rewrite contains_of_list, mem_rev.
    + apply IH. unfold Posix.mem in *. cbn [existsb].
      by rewrite (Ascii.eqb_sym sep a), E, Hcur.
Qed.

(** No piece of a split contains the separator. *)
Lemma split_pieces sep s :
  Forall (λ piece, Str.contains sep piece = false) (Str.split sep s).
Proof. by apply split_list_pieces. Qed.

Lemma split_list_whole sep l :
  Posix.mem sep l = false →
  ∀ cur, Str.split_list sep cur l = [Str.of_list (rev cur ++ l)].
Proof.
  induction l as [|a l IH]; intros Hl cur; cbn [Str.split_list].
  - by rewrite app_nil_r.
  - unfold Posix.mem in Hl. cbn [existsb] in Hl.
    apply orb_false_elim in Hl as [Ha Hl]. rewrite (Ascii.eqb_sym a sep), Ha.
    rewrite IH by done. simpl. by rewrite <- app_assoc.
Qed.

Lemma split_list_first sep k rest :
  Posix.mem sep k = false →
  ∀ cur, Str.split_list sep cur (k ++ sep :: rest)
         = Str.of_list (rev cur ++ k) :: Str.split_list sep [] rest.
Proof.
  induction k as [|a k IH]; intros Hk cur; cbn [Str.split_list app].
  - by rewrite Ascii.eqb_refl, app_nil_r.
  - unfold Posix.mem in Hk. cbn [existsb] in Hk.
    apply orb_false_elim in Hk as [Ha Hk]. rewrite (Ascii.eqb_sym a sep), Ha.
    rewrite IH by done. simpl. by rewrite <- app_assoc.
Qed.

(** A string splits into exactly two pieces when it is the two pieces,
    neither containing the separator, with the separator between them. *)
Lemma split_two sep s k v :
  Str.split sep s = [k; v]
  ↔ s = k +:+ String sep v
    ∧ Str.contains sep k = false ∧ Str.contains sep v = false.
Proof.
  split.
  - intros H. pose proof (split_join sep s) as Hj.
    pose proof (split_pieces sep s) as Hp. rewrite H in Hj, Hp.
    apply Forall_cons in Hp as [Hk Hp]. apply Forall_cons in Hp as [Hv _].
    by rewrite <- Hj.
  - intros (-> & Hk & Hv). unfold Str.split.
    rewrite to_list_append. cbn [Str.to_list list_ascii_of_string].
    rewrite <- (of_to_list k), contains_of_list in Hk.
    rewrite <- (of_to_list v), contains_of_list in Hv.
    fold (Str.to_list v).
    rewrite split_list_first by done. rewrite split_list_whole by done.
    simpl. by rewrite !of_to_list.
Qed.

End split_join.

(** ** The URI parser of cli.py (C5) *)

Section reassembly.

Ltac each_character c :=
  destruct c as [[] [] [] [] [] [] [] []]; vm_compute; try done.

Lemma scheme_char_plain c :
  Posix.scheme_char c = true →
  Posix.unsafe c = false
  ∧ (Posix.code c <=? 32)%nat = false
  ∧ Ascii.eqb c ":" = false
  ∧ Ascii.eqb c "/" = false
  ∧ Ascii.eqb c "?" = false
  ∧ Ascii.eqb c "#" = false
  ∧ Ascii.eqb c ";" = false.
Proof. each_character c. Qed.

Lemma lower_scheme_char c :
  Posix.scheme_char c = true → Posix.scheme_char (Posix.lower c) = true.
Proof. each_character c. Qed.

Lemma lower_is_alpha c :
  Posix.is_alpha c = true → Posix.is_alpha (Posix.lower c) = true.
Proof. each_character c. Qed.

Lemma is_alpha_scheme_char c :
  Posix.is_alpha c = true → Posix.scheme_char c = true.
Proof. each_character c. Qed.

Lemma lower_lower c : Posix.lower (Posix.lower c) = Posix.lower c.
Proof. each_character c. Qed.

Lemma unsafe_low c :
  (Posix.code c <=? 32)%nat = false → Posix.unsafe c = false.
Proof. each_character c. Qed.

(** *** Stripping and filtering *)

Lemma filter_clean l : clean l → filter (λ c, negb (Posix.unsafe c)) l = l.
Proof.
  induction 1 as [|c l Hc _ IH]; [done|].
  rewrite filter_cons, IH. rewrite Hc. done.
Qed.

Lemma clean_filter l : clean (filter (λ c, negb (Posix.unsafe c)) l).
Proof.
  induction l as [|c l IH]; [constructor|].
  rewrite filter_cons. destruct (Posix.unsafe c) eqn:E; simpl; [done|].
  by constructor.
Qed.

Lemma lstrip_c0_solid l : solid (Posix.lstrip_c0 l).
Proof.
  induction l as [|c l IH]; simpl; [done|].
  destruct (Posix.code c <=? 32)%nat eqn:E; [done|]. simpl. done.
Qed.

Lemma lstrip_c0_id l : solid l → Posix.lstrip_c0 l = l.
Proof. destruct l as [|c l]; simpl; [done|]. by intros ->. Qed.

Lemma filter_solid l : solid l → solid (filter (λ c, negb (Posix.unsafe c)) l).
Proof.
  destruct l as [|c l]; [done|]. simpl. intros Hc.
  rewrite filter_cons. by rewrite (unsafe_low c Hc).
Qed.

Lemma normalised_id l :
  clean l → solid l →
  filter (λ c, negb (Posix.unsafe c)) (Posix.lstrip_c0 l) = l.
Proof. intros Hc Hs. rewrite lstrip_c0_id by done. by apply filter_clean. Qed.


(** *** Splitting at a character *)

Lemma split_first_found c pre post :
  Posix.mem c pre = false →
  Posix.split_first c (pre ++ c :: post) = Some (pre, post).
Proof.
  induction pre as [|a pre IH]; simpl.
  - intros _. by rewrite Ascii.eqb_refl.
  - unfold Posix.mem. cbn [existsb]. intros [E Hm]%orb_false_elim.
    rewrite (Ascii.eqb_sym a c), E. by rewrite IH.
Qed.

Lemma split_first_absent c l :
  Posix.mem c l = false → Posix.split_first c l = None.
Proof.
  induction l as [|a l IH]; simpl; [done|].
  unfold Posix.mem. cbn [existsb]. intros [E Hm]%orb_false_elim.
  rewrite (Ascii.eqb_sym a c), E. by rewrite IH.
Qed.

Lemma split_opt_found c pre post :
  Posix.mem c pre = false →
  Posix.split_opt c (pre ++ c :: post) = (pre, post).
Proof. intros H. unfold Posix.split_opt. by rewrite split_first_found. Qed.

Lemma split_opt_absent c l :
  Posix.mem c l = false → Posix.split_opt c l = (l, []).
Proof. intros H. unfold Posix.split_opt. by rewrite split_first_absent. Qed.

Lemma split_opt_parts c l kept rest :
  Posix.split_opt c l = (kept, rest) →
  Posix.mem c kept = false
  ∧ (l = kept ++ c :: rest ∨ (l = kept ∧ rest = [])).
Proof.
  unfold Posix.split_opt.
  destruct (Posix.split_first c l) as [[pre post]|] eqn:E.
  - intros [= <- <-]. destruct (split_first_app c l pre post E) as [-> Hm].
    auto.
  - intros [= <- <-]. split; [by apply split_first_none|auto].
Qed.

Lemma mem_false_app c l1 l2 :
  Posix.mem c (l1 ++ l2) = false →
  Posix.mem c l1 = false ∧ Posix.mem c l2 = false.
Proof. rewrite mem_app. apply orb_false_elim. Qed.

(** *** The scheme *)

Lemma scheme_text_no_colon pre :
  forallb Posix.scheme_char pre = true → Posix.mem ":" pre = false.
Proof.
  induction pre as [|a pre IH]; [done|]. cbn [forallb].
  intros [Ha Hp]%andb_true_iff. unfold Posix.mem in *. cbn [existsb].
  destruct (scheme_char_plain a Ha) as (_ & _ & E & _).
  by rewrite (Ascii.eqb_sym ":" a), E, IH.
Qed.

Lemma split_scheme_found c0 pre post :
  Posix.is_alpha c0 = true →
  forallb Posix.scheme_char (c0 :: pre) = true →
  Posix.split_scheme ((c0 :: pre) ++ ":"%char :: post)
  = (map Posix.lower (c0 :: pre), post).
Proof.
  intros Ha Hs. unfold Posix.split_scheme.
  rewrite split_first_found by by apply scheme_text_no_colon.
  by rewrite Ha, Hs.
Qed.

Lemma split_scheme_parts l s r :
  Posix.split_scheme l = (s, r) →
  (s = [] ∧ r = l)
  ∨ ∃ c0 pre, l = (c0 :: pre) ++ ":"%char :: r
              ∧ s = map Posix.lower (c0 :: pre)
              ∧ Posix.is_alpha c0 = true
              ∧ forallb Posix.scheme_char (c0 :: pre) = true.
Proof.
  unfold Posix.split_scheme.
  destruct (Posix.split_first ":" l) as [[[|c0 pre] post]|] eqn:E;
    try (intros [= <- <-]; by left).
  destruct (Posix.is_alpha c0 && forallb Posix.scheme_char (c0 :: pre)) eqn:V;
    [|intros [= <- <-]; by left].
  intros [= <- <-]. right. exists c0, pre.
  apply andb_true_iff in V as [Ha Hs].
  by destruct (split_first_app _ _ _ _ E) as [-> _].
Qed.

Lemma split_scheme_not_alpha l :
  match l with [] => True | c :: _ => Posix.is_alpha c = false end →
  Posix.split_scheme l = ([], l).
Proof.
  intros H. destruct (Posix.split_scheme l) as [s r] eqn:E.
  destruct (split_scheme_parts l s r E) as [[-> ->]|(c0 & pre & -> & _ & Ha & _)];
    [done|].
  simpl in H. congruence.
Qed.

(** Whether a text starts with a scheme is decided before the first
    character that no scheme can hold. *)
Lemma scheme_text_inside l t pre r :
  ends_scheme_text t →
  forallb Posix.scheme_char pre = true →
  l ++ t = pre ++ ":"%char :: r →
  ∃ r', l = pre ++ ":"%char :: r'.
Proof.
  intros Ht. revert l. induction pre as [|a pre IH]; intros l Hp Heq.
  - destruct l as [|c l]; simpl in Heq.
    + subst t. simpl in Ht. by destruct Ht as [_ Ht].
    + injection Heq as -> _. by exists l.
  - apply andb_true_iff in Hp as [Ha Hp].
    destruct l as [|c l]; simpl in Heq.
    + subst t. simpl in Ht. destruct Ht as [Ht _]. congruence.
    + injection Heq as -> Heq. destruct (IH l Hp Heq) as [r' ->].
      by exists r'.
Qed.

Lemma no_scheme_transfer l t1 t2 :
  ends_scheme_text t1 → ends_scheme_text t2 →
  Posix.split_scheme (l ++ t1) = ([], l ++ t1) →
  Posix.split_scheme (l ++ t2) = ([], l ++ t2).
Proof.
  intros H1 H2 Hn.
  destruct (Posix.split_scheme (l ++ t2)) as [s r] eqn:E.
  destruct (split_scheme_parts _ s r E)
    as [[-> ->]|(c0 & pre & Heq & -> & Ha & Hs)]; [done|].
  destruct (scheme_text_inside l t2 (c0 :: pre) r H2 Hs Heq) as [r' ->].
  rewrite <- app_assoc in Hn. simpl in Hn.
  change (c0 :: pre ++ ":"%char :: r' ++ t1)
    with ((c0 :: pre) ++ ":"%char :: r' ++ t1) in Hn.
  rewrite split_scheme_found in Hn by done. done.
Qed.

(** *** The authority *)

Lemma splitnetloc_found n t :
  Posix.mem "/" n = false → Posix.mem "?" n = false →
  Posix.mem "#" n = false → ends_authority t →
  Posix.splitnetloc (n ++ t) = (n, t).
Proof.
  induction n as [|c n IH]; cbn [app Posix.splitnetloc].
  - intros _ _ _. destruct t as [|c t]; [done|].
    cbv beta iota delta [ends_authority]. cbn [Posix.splitnetloc].
    by intros ->.
  - unfold Posix.mem. cbn [existsb].
    intros [E1 H1]%orb_false_elim [E2 H2]%orb_false_elim
           [E3 H3]%orb_false_elim Ht.
    rewrite (Ascii.eqb_sym c "/"), (Ascii.eqb_sym c "?"),
      (Ascii.eqb_sym c "#"), E1, E2, E3. cbn [orb].
    by rewrite (IH H1 H2 H3 Ht).
Qed.

Lemma splitnetloc_parts l n t :
  Posix.splitnetloc l = (n, t) →
  l = n ++ t
  ∧ Posix.mem "/" n = false ∧ Posix.mem "?" n = false
  ∧ Posix.mem "#" n = false ∧ ends_authority t.
Proof.
  revert n t. induction l as [|c l IH]; intros n t; cbn [Posix.splitnetloc].
  - by intros [= <- <-].
  - destruct (Ascii.eqb c "/" || Ascii.eqb c "?" || Ascii.eqb c "#") eqn:E.
    + by intros [= <- <-].
    + destruct (Posix.splitnetloc l) as [d r]. intros [= <- <-].
      destruct (IH d r eq_refl) as (-> & H1 & H2 & H3 & H4).
      apply orb_false_elim in E as [[E1 E2]%orb_false_elim E3].
      unfold Posix.mem in *. cbn [existsb].
      rewrite (Ascii.eqb_sym "/" c), (Ascii.eqb_sym "?" c),
        (Ascii.eqb_sym "#" c), E1, E2, E3, H1, H2, H3. done.
Qed.

Lemma split_authority_found n t :
  Posix.mem "/" n = false → Posix.mem "?" n = false →
  Posix.mem "#" n = false → ends_authority t →
  xorb (Posix.mem "[" n) (Posix.mem "]" n) = false →
  Posix.split_authority ("/"%char :: "/"%char :: n ++ t) = Ok (n, t).
Proof.
  intros H1 H2 H3 Ht Hx. unfold Posix.split_authority.
  change (Ascii.eqb "/" "/" && Ascii.eqb "/" "/") with true. cbv iota.
  by rewrite splitnetloc_found, Hx.
Qed.

Lemma split_authority_absent l :
  Posix.starts_2slash l = false → Posix.split_authority l = Ok ([], l).
Proof.
  destruct l as [|c1 [|c2 l]]; simpl; [done..|].
  unfold Posix.starts_2slash, Posix.starts_slash. by intros ->.
Qed.

Lemma split_authority_parts l n t :
  Posix.split_authority l = Ok (n, t) →
  (l = "/"%char :: "/"%char :: n ++ t
   ∧ Posix.mem "/" n = false ∧ Posix.mem "?" n = false
   ∧ Posix.mem "#" n = false ∧ ends_authority t
   ∧ xorb (Posix.mem "[" n) (Posix.mem "]" n) = false)
  ∨ (n = [] ∧ t = l ∧ Posix.starts_2slash l = false).
Proof.
  unfold Posix.split_authority.
  destruct l as [|c1 [|c2 l]].
  { intros [= <- <-]. by right. }
  { intros [= <- <-]. right. unfold Posix.starts_2slash. cbn [Posix.starts_slash].
    by rewrite andb_false_r. }
  destruct (Ascii.eqb c1 "/" && Ascii.eqb c2 "/") eqn:E.
  - apply andb_true_iff in E as [->%Ascii.eqb_eq ->%Ascii.eqb_eq].
    destruct (Posix.splitnetloc l) as [d r] eqn:Hd.
    destruct (xorb _ _) eqn:Hx; [done|]. intros [= <- <-]. left.
    destruct (splitnetloc_parts l d r Hd) as (-> & ? & ? & ? & ?).
    repeat split; done.
  - intros [= <- <-]. right. auto.
Qed.


(** *** The parameters of the last segment *)

Lemma splitparams_parts p p' a :
  Posix.splitparams p = (p', a) →
  p = p' ++ ";"%char :: a ∨ (p' = p ∧ a = []).
Proof.
  unfold Posix.splitparams.
  destruct (Posix.split_first "/" (rev p)) as [[seg dirs]|] eqn:E.
  - destruct (Posix.split_first ";" ("/"%char :: rev seg))
      as [[pre params]|] eqn:E2.
    + intros [= <- <-]. left.
      destruct (split_first_app _ _ _ _ E) as [Hr _].
      destruct (split_first_app _ _ _ _ E2) as [Hs _].
      rewrite <- (rev_involutive p), Hr, rev_app_distr. simpl.
      rewrite <- !app_assoc. simpl. by rewrite Hs.
    + intros [= <- <-]. by right.
  - intros H. destruct (split_opt_parts _ _ _ _ H) as [_ [->|[-> ->]]]; auto.
Qed.

Lemma rejoined_params (guard : bool) p :
  let '(p', a) := if guard then Posix.splitparams p else (p, []) in
  rejoined p (if negb (Posix.is_empty a) then p' ++ ";"%char :: a else p').
Proof.
  destruct guard; [|by left].
  destruct (Posix.splitparams p) as [p' a] eqn:E.
  destruct (splitparams_parts p p' a E) as [->|[-> ->]].
  - destruct a; simpl; [by right|by left].
  - by left.
Qed.

Lemma rejoined_clean p p' : rejoined p p' → clean p → clean p'.
Proof.
  intros [->| ->]; [done|]. unfold clean. rewrite Forall_app. by intros [? _].
Qed.

Lemma rejoined_mem c p p' :
  rejoined p p' → Posix.mem c p = false → Posix.mem c p' = false.
Proof.
  intros [->| ->]; [done|]. by intros [? _]%mem_false_app.
Qed.

Lemma rejoined_2slash p p' :
  rejoined p p' → Posix.starts_2slash p = false →
  Posix.starts_2slash p' = false.
Proof.
  intros [->| ->]; [done|]. by destruct p' as [|c1 [|c2 p']].
Qed.

Lemma rejoined_slash p p' :
  rejoined p p' → p = [] ∨ Posix.starts_slash p = true →
  p' = [] ∨ Posix.starts_slash p' = true.
Proof.
  intros [->| ->]; [done|]. destruct p' as [|c p']; [by left|].
  intros [?|?]; [done|by right].
Qed.

(** *** Putting a URL together *)

Lemma urlunsplit_parts s n p q :
  Posix.urlunsplit s n p q
  = scheme_prefix s
    ++ (if with_authority s n p
        then "/"%char :: "/"%char :: n ++ slashed p ++ query_suffix q
        else p ++ query_suffix q).
Proof.
  unfold Posix.urlunsplit, scheme_prefix, slashed, with_authority, query_suffix.
  destruct (negb (Posix.is_empty n)
            || negb (Posix.is_empty s)
               && Posix.mem_str (Str.of_list s) Posix.uses_netloc
               && negb (Posix.starts_2slash p));
    destruct (negb (Posix.is_empty s)); destruct (negb (Posix.is_empty q));
    simpl; repeat (rewrite <- app_assoc; simpl); rewrite ?app_nil_r; done.
Qed.

Lemma slashed_ends_authority p q :
  ends_authority (slashed p ++ query_suffix q).
Proof.
  unfold slashed, query_suffix.
  destruct p as [|c p]; simpl.
  - by destruct q.
  - destruct (Ascii.eqb c "/") eqn:E; simpl; [by rewrite E|done].
Qed.

Lemma path_query_2slash p q :
  Posix.starts_2slash p = false →
  Posix.starts_2slash (p ++ query_suffix q) = false.
Proof.
  unfold query_suffix.
  destruct p as [|c1 [|c2 p]]; [by destruct q| |done].
  destruct q; simpl; [done|]. intros _. by rewrite andb_false_r.
Qed.


(** *** What the components of a split URL are like *)

Lemma urlsplit_list_parts l0 s n p q f :
  Posix.urlsplit_list l0 = Ok (s, n, p, q, f) →
  ∃ url1 r1 r2 r3,
    clean url1 ∧ solid url1
    ∧ Posix.split_scheme url1 = (s, r1)
    ∧ Posix.split_authority r1 = Ok (n, r2)
    ∧ Posix.split_opt "#" r2 = (r3, f)
    ∧ Posix.split_opt "?" r3 = (p, q).
Proof.
  unfold Posix.urlsplit_list.
  set (url1 := filter _ _).
  destruct (Posix.split_scheme url1) as [s' r1] eqn:Hs.
  destruct (Posix.split_authority r1) as [[n' r2]|e] eqn:Ha; [|done]. simpl.
  destruct (Posix.split_opt "#" r2) as [r3 f'] eqn:Hf.
  destruct (Posix.split_opt "?" r3) as [p' q'] eqn:Hq.
  intros [= <- <- <- <- <-]. exists url1, r1, r2, r3.
  split; [apply clean_filter|].
  split; [apply filter_solid, lstrip_c0_solid|done].
Qed.

Lemma urlsplit_list_from url1 s r1 n r2 :
  clean url1 → solid url1 →
  Posix.split_scheme url1 = (s, r1) →
  Posix.split_authority r1 = Ok (n, r2) →
  Posix.urlsplit_list url1
  = (let '(u, f) := Posix.split_opt "#" r2 in
     let '(u, q) := Posix.split_opt "?" u in
     Ok (s, n, u, q, f)).
Proof.
  intros Hc Hs H1 H2. unfold Posix.urlsplit_list.
  rewrite normalised_id by done. rewrite H1, H2. done.
Qed.

Lemma path_first r2 r3 f p q :
  Posix.split_opt "#" r2 = (r3, f) →
  Posix.split_opt "?" r3 = (p, q) →
  Posix.mem "?" p = false ∧ Posix.mem "#" p = false
  ∧ Posix.mem "#" q = false
  ∧ ∃ t, r2 = p ++ t ∧ ends_scheme_text t.
Proof.
  intros Hf Hq.
  destruct (split_opt_parts _ _ _ _ Hf) as [Hf1 Hf2].
  destruct (split_opt_parts _ _ _ _ Hq) as [Hq1 Hq2].
  destruct Hq2 as [->|[-> ->]].
  - apply mem_false_app in Hf1 as [Hp Hq'].
    unfold Posix.mem in Hq'. cbn [existsb] in Hq'.
    apply orb_false_elim in Hq' as [_ Hq'].
    split; [done|]. split; [done|]. split; [done|].
    destruct Hf2 as [->|[-> ->]].
    + exists ("?"%char :: q ++ "#"%char :: f).
      by rewrite <- app_assoc.
    + by exists ("?"%char :: q).
  - split; [done|]. split; [done|]. split; [done|].
    destruct Hf2 as [->|[-> ->]].
    + by exists ("#"%char :: f).
    + exists []. by rewrite app_nil_r.
Qed.

Lemma clean_lower_scheme pre :
  forallb Posix.scheme_char pre = true → clean (map Posix.lower pre).
Proof.
  induction pre as [|a pre IH]; [constructor|]. cbn [forallb].
  intros [Ha Hp]%andb_true_iff. constructor; [|by apply IH].
  by destruct (scheme_char_plain _ (lower_scheme_char a Ha)) as [? _].
Qed.

Lemma clean_split_opt c l kept rest :
  Posix.split_opt c l = (kept, rest) → clean l → clean kept ∧ clean rest.
Proof.
  intros H. destruct (split_opt_parts _ _ _ _ H) as [_ [->|[-> ->]]].
  - unfold clean. rewrite Forall_app, Forall_cons. tauto.
  - intros ?. split; [done|constructor].
Qed.

Lemma urlsplit_list_well_split l0 s n p q f :
  Posix.urlsplit_list l0 = Ok (s, n, p, q, f) → well_split s n p q.
Proof.
  intros H.
  destruct (urlsplit_list_parts _ _ _ _ _ _ H)
    as (url1 & r1 & r2 & r3 & Hc & Hsol & Hs & Ha & Hf & Hq).
  destruct (path_first _ _ _ _ _ Hf Hq) as (Hp1 & Hp2 & Hq1 & t & Hr2 & Ht).
  assert (Hsch : scheme_text s ∧ clean s ∧ clean r1).
  { destruct (split_scheme_parts _ _ _ Hs)
      as [[-> ->]|(c0 & pre & Heq & -> & Halpha & Hchars)].
    - split; [by left|]. split; [constructor|done].
    - split; [right; by exists c0, pre|].
      split; [by apply clean_lower_scheme|].
      rewrite Heq in Hc. unfold clean in *.
      rewrite ?Forall_app, ?Forall_cons in Hc. tauto. }
  destruct Hsch as (Hst & Hcs & Hcr1).
  assert (Hn : clean n ∧ clean r2
               ∧ Posix.mem "/" n = false ∧ Posix.mem "?" n = false
               ∧ Posix.mem "#" n = false
               ∧ xorb (Posix.mem "[" n) (Posix.mem "]" n) = false
               ∧ ((ends_authority r2)
                  ∨ (n = [] ∧ r2 = r1 ∧ Posix.starts_2slash r1 = false))).
  { destruct (split_authority_parts _ _ _ Ha)
      as [(Heq & ? & ? & ? & ? & ?)|(-> & -> & ?)].
    - rewrite Heq in Hcr1. unfold clean in *.
      rewrite ?Forall_cons, ?Forall_app in Hcr1.
      repeat split; tauto.
    - repeat split; try done; [constructor|]. right. done. }
  destruct Hn as (Hcn & Hcr2 & Hn1 & Hn2 & Hn3 & Hn4 & Hn5).
  destruct (clean_split_opt _ _ _ _ Hf Hcr2) as [Hcr3 _].
  destruct (clean_split_opt _ _ _ _ Hq Hcr3) as [Hcp Hcq].
  assert (Hafter : ends_authority r2 → p = [] ∨ Posix.starts_slash p = true).
  { rewrite Hr2. destruct p as [|c p']; [by left|]. intros Hc0. right.
    cbv beta iota delta [ends_authority] in Hc0. cbn [app] in Hc0.
    unfold Posix.mem in Hp1, Hp2. cbn [existsb] in Hp1, Hp2.
    apply orb_false_elim in Hp1 as [E1 _].
    apply orb_false_elim in Hp2 as [E2 _].
    rewrite (Ascii.eqb_sym c "?"), E1, (Ascii.eqb_sym c "#"), E2 in Hc0.
    rewrite !orb_false_r in Hc0. done. }
  split; try done.
  - intros Hne. destruct Hn5 as [He|(-> & _)]; [auto|done].
  - intros -> _.
    destruct Hn5 as [He|(_ & -> & H2)]; [left; auto|].
    right. exists t. split; [done|].
    destruct (split_scheme_parts _ _ _ Hs)
      as [[_ ->]|(c0 & pre & _ & [=] & _)].
    rewrite <- Hr2. done.
Qed.


(** *** Splitting what was put together *)

Lemma map_lower_twice l :
  map Posix.lower (map Posix.lower l) = map Posix.lower l.
Proof.
  induction l as [|c l IH]; [done|]. simpl. by rewrite lower_lower, IH.
Qed.

Lemma forallb_lower l :
  forallb Posix.scheme_char l = true →
  forallb Posix.scheme_char (map Posix.lower l) = true.
Proof.
  induction l as [|c l IH]; [done|]. cbn [forallb map].
  intros [Hc Hl]%andb_true_iff. by rewrite (lower_scheme_char c Hc), IH.
Qed.

Lemma split_scheme_prefix s R :
  scheme_text s →
  (s = [] → Posix.split_scheme R = ([], R)) →
  Posix.split_scheme (scheme_prefix s ++ R) = (s, R).
Proof.
  intros [->|(c0 & pre & -> & Ha & Hs)] Hn; [by apply Hn|].
  unfold scheme_prefix. cbn [map Posix.is_empty negb].
  rewrite <- app_assoc. cbn [app].
  change (Posix.lower c0 :: map Posix.lower pre ++ ":"%char :: R)
    with ((Posix.lower c0 :: map Posix.lower pre) ++ ":"%char :: R).
  rewrite split_scheme_found.
  - change (Posix.lower c0 :: map Posix.lower pre)
      with (map Posix.lower (c0 :: pre)).
    by rewrite map_lower_twice.
  - by apply lower_is_alpha.
  - by apply (forallb_lower (c0 :: pre)).
Qed.

Lemma solid_prefix s R :
  scheme_text s → (s = [] → solid R) → solid (scheme_prefix s ++ R).
Proof.
  intros [->|(c0 & pre & -> & Ha & Hs)] Hn; [by apply Hn|].
  unfold scheme_prefix. cbn [map Posix.is_empty negb app solid].
  apply is_alpha_scheme_char, lower_scheme_char in Ha.
  by destruct (scheme_char_plain _ Ha) as (_ & ? & _).
Qed.

Lemma clean_prefix s : clean s → clean (scheme_prefix s).
Proof.
  intros H. unfold scheme_prefix. destruct s as [|c s]; [constructor|].
  cbn [Posix.is_empty negb]. unfold clean. rewrite Forall_app. split; [done|].
  by repeat constructor.
Qed.

Lemma clean_query_suffix q : clean q → clean (query_suffix q).
Proof.
  intros H. unfold query_suffix. destruct q as [|c q]; [constructor|].
  cbn [Posix.is_empty negb]. by constructor.
Qed.

Lemma clean_slashed p : clean p → clean (slashed p).
Proof.
  intros H. unfold slashed. destruct (_ && _); [by constructor|done].
Qed.

Lemma solid_same_head l t1 t2 : solid (l ++ t1) → solid t2 → solid (l ++ t2).
Proof. by destruct l. Qed.

Lemma query_suffix_ends_scheme_text q : ends_scheme_text (query_suffix q).
Proof. by destruct q. Qed.

Lemma query_suffix_solid q : solid (query_suffix q).
Proof. by destruct q. Qed.

Lemma path_slash_no_scheme p q :
  p = [] ∨ Posix.starts_slash p = true →
  solid (p ++ query_suffix q)
  ∧ Posix.split_scheme (p ++ query_suffix q) = ([], p ++ query_suffix q).
Proof.
  intros [->|H].
  - split; [apply query_suffix_solid|].
    apply split_scheme_not_alpha. by destruct q.
  - destruct p as [|c p]; [done|]. simpl in H. apply Ascii.eqb_eq in H as ->.
    split; [done|]. by apply split_scheme_not_alpha.
Qed.

Lemma path_alone_no_scheme p p' q t :
  rejoined p p' → ends_scheme_text t → solid (p ++ t) →
  Posix.split_scheme (p ++ t) = ([], p ++ t) →
  solid (p' ++ query_suffix q)
  ∧ Posix.split_scheme (p' ++ query_suffix q) = ([], p' ++ query_suffix q).
Proof.
  intros [->| ->] Ht Hs Hn.
  - split.
    + apply (solid_same_head p t); [done|apply query_suffix_solid].
    + apply (no_scheme_transfer p t); [done|apply query_suffix_ends_scheme_text|done].
  - rewrite <- app_assoc in Hs, Hn. cbn [app] in Hs, Hn. split.
    + apply (solid_same_head p' (";"%char :: t)); [done|apply query_suffix_solid].
    + apply (no_scheme_transfer p' (";"%char :: t));
        [done|apply query_suffix_ends_scheme_text|done].
Qed.

Lemma resplit s n p q p' :
  well_split s n p q →
  n ≠ [] ∨ Posix.starts_2slash p = false →
  rejoined p p' →
  Posix.urlsplit_list (Posix.urlunsplit s n p' q)
  = (let '(u, f) :=
       Posix.split_opt "#"
         ((if with_authority s n p' then slashed p' else p')
          ++ query_suffix q) in
     let '(u, q') := Posix.split_opt "?" u in
     Ok (s, n, u, q', f)).
Proof.
  intros [(Hcs & Hcn & Hcp & Hcq) Hst (Hn1 & Hn2 & Hn3) Hx (Hp1 & Hp2) Hq1
            Hafter Halone] Hnd Hr.
  rewrite urlunsplit_parts.
  pose proof (rejoined_clean _ _ Hr Hcp) as Hcp'.
  pose proof (clean_query_suffix _ Hcq) as HcQ.
  pose proof (clean_prefix _ Hcs) as HcS.
  destruct (with_authority s n p') eqn:Hw.
  - pose proof (clean_slashed _ Hcp') as Hcsl.
    apply urlsplit_list_from
      with (r1 := "/"%char :: "/"%char :: n ++ slashed p' ++ query_suffix q).
    + unfold clean in *. rewrite ?Forall_app, ?Forall_cons, ?Forall_app.
      repeat split; done.
    + by apply solid_prefix.
    + apply split_scheme_prefix; [done|]. intros _.
      by apply split_scheme_not_alpha.
    + apply split_authority_found; try done. apply slashed_ends_authority.
  - assert (n = []) as ->.
    { unfold with_authority in Hw. by destruct n. }
    assert (H2 : Posix.starts_2slash p' = false).
    { apply (rejoined_2slash p p' Hr). by destruct Hnd. }
    assert (Hno : s = [] →
                  solid (p' ++ query_suffix q)
                  ∧ Posix.split_scheme (p' ++ query_suffix q)
                    = ([], p' ++ query_suffix q)).
    { intros Hs. destruct (Halone Hs eq_refl) as [H|(t & Ht & Hsol & Hn)].
      - apply path_slash_no_scheme. by apply (rejoined_slash p p').
      - by apply (path_alone_no_scheme p p' q t). }
    apply urlsplit_list_from with (r1 := p' ++ query_suffix q).
    + unfold clean in *. rewrite ?Forall_app. repeat split; done.
    + apply solid_prefix; [done|]. intros Hs. by apply Hno.
    + apply split_scheme_prefix; [done|]. intros Hs. by apply Hno.
    + apply split_authority_absent. by apply path_query_2slash.
Qed.

Lemma resplit_kept s n p q :
  well_split s n p q →
  n ≠ [] ∨ Posix.starts_2slash p = false →
  Posix.mem_str (Str.of_list s) Posix.uses_netloc = false →
  Posix.urlsplit_list (Posix.urlunsplit s n p q) = Ok (s, n, p, q, []).
Proof.
  intros W Hnd Hu. rewrite (resplit s n p q p W Hnd) by by left.
  destruct W as [_ _ _ _ (Hp1 & Hp2) Hq1 Hafter _].
  assert (Hsl : (if with_authority s n p then slashed p else p) = p).
  { unfold with_authority. rewrite Hu, andb_false_r, orb_false_r.
    destruct n as [|c n]; [done|]. cbn [Posix.is_empty negb].
    unfold slashed.
    destruct (Hafter ltac:(done)) as [->| ->]; [done|].
    by rewrite andb_false_r. }
  rewrite Hsl.
  assert (Hh : Posix.mem "#" (p ++ query_suffix q) = false).
  { rewrite mem_app, Hp2. by destruct q. }
  rewrite (split_opt_absent _ _ Hh).
  destruct q as [|c q]; unfold query_suffix; cbn [Posix.is_empty negb].
  - rewrite app_nil_r. by rewrite (split_opt_absent _ _ Hp1).
  - by rewrite (split_opt_found _ _ _ Hp1).
Qed.

Lemma resplit_scheme s n p q p' :
  well_split s n p q →
  n ≠ [] ∨ Posix.starts_2slash p = false →
  rejoined p p' →
  ∃ u q' f,
    Posix.urlsplit_list (Posix.urlunsplit s n p' q) = Ok (s, n, u, q', f).
Proof.
  intros W Hnd Hr. rewrite (resplit s n p q p' W Hnd Hr).
  destruct (Posix.split_opt "#" _) as [u f].
  destruct (Posix.split_opt "?" u) as [u' q']. by exists u', q', f.
Qed.


(** *** The parser on the components of the URI *)

Lemma prefix_2slash p :
  String.prefix "//" (Str.of_list p) = Posix.starts_2slash p.
Proof.
  unfold Posix.starts_2slash, Posix.starts_slash.
  destruct p as [|c1 [|c2 p]]; cbn [Str.of_list string_of_list_ascii String.prefix].
  - done.
  - destruct (ascii_dec "/" c1); [|symmetry; apply andb_false_r].
    symmetry; apply andb_false_r.
  - destruct (ascii_dec "/" c1) as [<-|N1].
    + rewrite Ascii.eqb_refl. cbn [andb].
      destruct (ascii_dec "/" c2) as [<-|N2];
        [rewrite Ascii.eqb_refl; by destruct (string_of_list_ascii p)|].
      symmetry. apply Ascii.eqb_neq. congruence.
    + assert (Ascii.eqb c1 "/" = false) as ->; [|done].
      apply Ascii.eqb_neq. congruence.
Qed.

Lemma urlsplit_components url parts :
  Posix.urlsplit url = Ok parts →
  ∃ s n p q f,
    Posix.urlsplit_list (Str.to_list url) = Ok (s, n, p, q, f)
    ∧ parts = {| scheme := Str.of_list s; netloc := Str.of_list n;
                 path := Str.of_list p; query := Str.of_list q;
                 fragment := Str.of_list f |}.
Proof.
  unfold Posix.urlsplit.
  destruct (Posix.urlsplit_list _) as [[[[[s n] p] q] f]|e]; [|done].
  simpl. intros [= <-]. by exists s, n, p, q, f.
Qed.

Lemma urlsplit_of_list l :
  Posix.urlsplit (Str.of_list l)
  = '(s, n, p, q, f) ← Posix.urlsplit_list l;
    Ok {| scheme := Str.of_list s; netloc := Str.of_list n;
          path := Str.of_list p; query := Str.of_list q;
          fragment := Str.of_list f |}.
Proof. unfold Posix.urlsplit. by rewrite to_of_list. Qed.

(** The scheme of the URI decides, and the authority and the path of the
    result are the URI's own, unless the URI has a fragment, no authority
    and a path that starts with two slashes. *)
Lemma parse_cfn_uri_components remote uri parts :
  Posix.urlsplit uri = Ok parts →
  Str.contains "#" uri = false ∨ netloc parts ≠ ""
  ∨ String.prefix "//" (path parts) = false →
  cli.parse_cfn_uri (Posix.runtime_of remote) uri
  = if String.eqb (scheme parts) "cfn"
    then Ok (netloc parts, netloc parts +:+ path parts)
    else Raise (InvalidScheme (scheme parts)).
Proof.
  intros Hs Hnd. unfold cli.parse_cfn_uri. cbn [urldefrag urlsplit Posix.runtime_of].
  unfold Posix.urldefrag. destruct (Str.contains "#" uri) eqn:Hh.
  - destruct (urlsplit_components uri parts Hs) as (s & n & p & q & f & Hl & ->).
    cbn [scheme netloc path] in *. rewrite Hl. cbn [mbind outcome_bind' outcome_bind].
    pose proof (urlsplit_list_well_split _ _ _ _ _ _ Hl) as W.
    assert (Hnd' : n ≠ [] ∨ Posix.starts_2slash p = false).
    { destruct Hnd as [?|[Hn|Hp]]; [done| |].
      - left. intros ->. by apply Hn.
      - right. by rewrite <- prefix_2slash. }
    pose proof (rejoined_params
                  (Posix.mem_str (Str.of_list s) Posix.uses_params
                   && Posix.mem ";" p) p) as Hr.
    destruct (if Posix.mem_str (Str.of_list s) Posix.uses_params
                 && Posix.mem ";" p
              then Posix.splitparams p else (p, [])) as [p1 a] eqn:Hpa.
    cbn [mbind outcome_bind' outcome_bind].
    rewrite urlsplit_of_list.
    destruct (String.eqb (Str.of_list s) "cfn") eqn:E.
    + apply String.eqb_eq in E.
      assert (p1 = p ∧ a = []) as [-> ->].
      { rewrite E in Hpa. cbn in Hpa. by injection Hpa as <- <-. }
      cbn [Posix.is_empty negb].
      rewrite (resplit_kept s n p q W Hnd') by by rewrite E.
      cbn [mbind outcome_bind' outcome_bind scheme netloc path].
      by rewrite E.
    + destruct (resplit_scheme s n p q _ W Hnd' Hr) as (u & q' & f' & ->).
      cbn [mbind outcome_bind' outcome_bind scheme netloc path].
      by rewrite E.
  - cbn [mbind outcome_bind' outcome_bind]. rewrite Hs.
    cbn [mbind outcome_bind' outcome_bind].
    by destruct (String.eqb (scheme parts) "cfn").
Qed.

Lemma parse_cfn_uri_unsplittable remote uri e :
  Posix.urlsplit uri = Raise e →
  cli.parse_cfn_uri (Posix.runtime_of remote) uri = Raise e.
Proof.
  intros Hs. unfold cli.parse_cfn_uri. cbn [urldefrag urlsplit Posix.runtime_of].
  unfold Posix.urldefrag. destruct (Str.contains "#" uri).
  - unfold Posix.urlsplit in Hs.
    destruct (Posix.urlsplit_list _) as [[[[[s n] p] q] f]|e']; [done|].
    simpl in Hs. by injection Hs as ->.
  - cbn [mbind outcome_bind' outcome_bind]. by rewrite Hs.
Qed.

End reassembly.




(** ** The handler of cli.py *)

(** With [urllib.parse] as on CPython, a reference is judged by its own
    components before the cache is looked at.  A reference that [urlsplit]
    rejects, or whose scheme is not [cfn], makes the handler raise the
    parser's exception with no remote call and the module state as it was.
    A [cfn] reference is handed to the resolver with its authority as stack
    name and its authority followed by its path as structural path, the
    fragment and the query dropped.  As for the parser, references with a
    bracket in the authority, and references with a [#], no authority and a
    path that starts with two slashes, are left out. *)
Theorem handle_cfn_uri_by_components remote uri s :
  let rt := Posix.runtime_of remote in
  (∀ e, Posix.urlsplit uri = Raise e →
        cli.handle_cfn_uri rt uri s = (Raise e, s))
  ∧ (∀ parts,
       Posix.urlsplit uri = Ok parts →
       Str.contains "[" (netloc parts) = false →
       Str.contains "#" uri = false ∨ netloc parts ≠ ""
       ∨ String.prefix "//" (path parts) = false →
       cli.handle_cfn_uri rt uri s
       = if String.eqb (scheme parts) "cfn"
         then cli.retrieve_attribute rt (netloc parts)
                (netloc parts +:+ path parts) s
         else (Raise (InvalidScheme (scheme parts)), s)).
Proof.
  intros rt. subst rt.
  unfold cli.handle_cfn_uri, mbind, M_bind, bind, lift. split.
  - intros e He. by rewrite (parse_cfn_uri_unsplittable remote uri e He).
  - intros parts Hs _ Hnd.
    rewrite (parse_cfn_uri_components remote uri parts Hs Hnd).
    by destruct (String.eqb (scheme parts) "cfn").
Qed.

Lemma handle_cfn_uri_by_components_witness :
  Posix.urlsplit "http://Stack/A?x#y"
  = Ok {| scheme := "http"; netloc := "Stack"; path := "/A";
          query := "x"; fragment := "y" |}
  ∧ cli.handle_cfn_uri Example.rt "http://Stack/A?x#y" (fresh Example.region)
    = (Raise (InvalidScheme "http"), fresh Example.region).
Proof.
  split; [reflexivity|].
  destruct (handle_cfn_uri_by_components Example.remote "http://Stack/A?x#y"
              (fresh Example.region)) as [_ Hparts].
  assert (Hnd : Str.contains "#" "http://Stack/A?x#y" = false
                ∨ "Stack" ≠ "" ∨ String.prefix "//" "/A" = false).
  { right. left. discriminate. }
  apply (Hparts {| scheme := "http"; netloc := "Stack"; path := "/A";
                   query := "x"; fragment := "y" |} eq_refl eq_refl Hnd).
Defined.

(** ** The parameters of the command line *)

Section parameters.

Lemma exactly_one_equals_split p :
  exactly_one_equals p ↔ ∃ k v, Str.split "=" p = [k; v].
Proof.
  unfold exactly_one_equals. pose proof (split_length "=" p) as Hl. split.
  - intros H. rewrite H in Hl.
    destruct (Str.split "=" p) as [|k [|v [|? ?]]]; try done. eauto.
  - intros (k & v & H). rewrite H in Hl. simpl in Hl. lia.
Qed.

Lemma dict_update_good items :
  Forall (λ item, length item = 2) items →
  ∀ i d, is_ok (dict_update i d items) = true.
Proof.
  induction 1 as [|item items Hlen _ IH]; intros i d; [done|].
  destruct item as [|k [|v [|? ?]]]; try done. apply IH.
Qed.

Lemma dict_update_first_bad good bad rest :
  Forall (λ item, length item = 2) good →
  length bad ≠ 2 →
  ∀ i d,
    dict_update i d (good ++ bad :: rest)
    = Raise (ValueError
               ("dictionary update sequence element #"
                +:+ pretty (i + length good)
                +:+ " has length " +:+ pretty (length bad)
                +:+ "; 2 is required")).
Proof.
  intros Hgood Hbad.
  induction Hgood as [|item good Hlen _ IH]; intros i d.
  - simpl. rewrite Nat.add_0_r.
    destruct bad as [|k [|v [|? ?]]]; done.
  - destruct item as [|k [|v [|? ?]]]; try done.
    cbn [app dict_update length].
    replace (i + S (length good)) with (S i + length good) by lia.
    apply IH.
Qed.

(** The value of a key after a run of assignments: the last one made to
    it, or what was there. *)
Lemma assignments_last (es : list (string * string)) k v :
  ∀ d, dict_get (foldl (λ d e, dict_set d e.1 e.2) d es) k = Some v
       ↔ (∃ before after, es = before ++ (k, v) :: after
                          ∧ k ∉ map fst after)
         ∨ (dict_get d k = Some v ∧ k ∉ map fst es).
Proof.
  induction es as [|[k' v'] es IH]; intros d; simpl.
  - split; [intros H; right; split; [done|by intros ?%elem_of_nil]|].
    intros [(b & a & H & _)|[H _]]; [by destruct b|done].
  - rewrite IH. clear IH. split.
    + intros [(b & a & -> & Ha)|[Hg Hn]].
      * left. by exists ((k', v') :: b), a.
      * destruct (decide (k' = k)) as [->|Hne].
        -- rewrite dict_get_set_eq in Hg. simplify_eq. left. by exists [], es.
        -- rewrite dict_get_set_ne in Hg by done. right. split; [done|].
           intros [?|?]%elem_of_cons; by subst.
    + intros [(b & a & Heq & Ha)|[Hg Hn]].
      * destruct b as [|e b]; simplify_eq/=.
        -- right. by rewrite dict_get_set_eq.
        -- left. by exists b, a.
      * right. apply not_elem_of_cons in Hn as [Hne Hn].
        by rewrite dict_get_set_ne.
Qed.

Lemma dict_update_pairs (pairs : list (string * string)) :
  ∀ i d, dict_update i d (map (λ e, [e.1; e.2]) pairs)
         = Ok (foldl (λ d e, dict_set d e.1 e.2) d pairs).
Proof. induction pairs as [|[k v] pairs IH]; intros i d; simpl; [done|apply IH]. Qed.

(** Parameters that all split in two, as pairs. *)
Lemma parameters_as_pairs ps :
  Forall exactly_one_equals ps →
  ∃ pairs : list (string * string),
    map (Str.split "=") ps = map (λ e, [e.1; e.2]) pairs
    ∧ ps = map (λ e, e.1 +:+ String "=" e.2) pairs
    ∧ Forall (λ e, Str.contains "=" e.1 = false) pairs.
Proof.
  induction 1 as [|p ps Hp _ (pairs & H1 & H2 & H3)].
  - by exists [].
  - apply exactly_one_equals_split in Hp as (k & v & Hkv).
    pose proof Hkv as (-> & Hk & _)%split_two.
    exists ((k, v) :: pairs). simpl. rewrite Hkv, H1, <- H2.
    split; [done|]. split; [done|]. by constructor.
Qed.

End parameters.

Lemma split_in_two_iff p :
  length (Str.split "=" p) = 2 ↔ exactly_one_equals p.
Proof. unfold exactly_one_equals. rewrite split_length. lia. Qed.

Lemma parameters_stop_at_first_bad good bad rest :
  Forall exactly_one_equals good →
  ¬ exactly_one_equals bad →
  dict_of_pairs (map (Str.split "=") (good ++ bad :: rest))
  = Raise (ValueError
             ("dictionary update sequence element #"
              +:+ pretty (length good)
              +:+ " has length " +:+ pretty (S (Str.count "=" bad))
              +:+ "; 2 is required")).
Proof.
  intros Hgood Hb. unfold dict_of_pairs.
  rewrite map_app. cbn [map]. rewrite dict_update_first_bad.
  - by rewrite length_map, split_length.
  - apply Forall_map. eapply Forall_impl; [exact Hgood|].
    intros p. apply split_in_two_iff.
  - by rewrite split_in_two_iff.
Qed.

Lemma first_bad_parameter ps :
  ¬ Forall exactly_one_equals ps →
  ∃ good bad rest, ps = good ++ bad :: rest
                   ∧ Forall exactly_one_equals good
                   ∧ ¬ exactly_one_equals bad.
Proof.
  intros Hno.
  apply not_Forall_Exists in Hno;
    [|intros p; unfold exactly_one_equals; apply _].
  induction ps as [|p ps IH].
  - by apply Exists_nil in Hno.
  - destruct (decide (exactly_one_equals p)) as [Hp|Hp].
    + apply Exists_cons in Hno as [?|Hno]; [done|].
      destruct (IH Hno) as (good & bad & rest & -> & Hg & Hb).
      exists (p :: good), bad, rest. split; [done|]. split; [|done].
      by constructor.
    + exists [], p, ps. by repeat split.
Qed.

Lemma parameters_ok_iff ps :
  is_ok (dict_of_pairs (map (Str.split "=") ps)) = true
  ↔ Forall exactly_one_equals ps.
Proof.
  split.
  - intros Hok. destruct (decide (Forall exactly_one_equals ps))
      as [|Hno]; [done|].
    destruct (first_bad_parameter ps Hno) as (good & bad & rest & -> & Hg & Hb).
    by rewrite (parameters_stop_at_first_bad good bad rest Hg Hb) in Hok.
  - intros Hall. apply dict_update_good. apply Forall_map.
    eapply Forall_impl; [exact Hall|]. intros p. apply split_in_two_iff.
Qed.

(** The parameters of the command line make a dictionary exactly when
    every one of them contains exactly one [=]; otherwise the construction
    stops at the first parameter that does not, with a [ValueError] that
    names its position and the number of its pieces.  A value with an [=]
    in it is therefore refused. *)
Theorem parameters_accepted_iff (parameter : list string) :
  (is_ok (dict_of_pairs (map (Str.split "=") parameter)) = true
   ↔ Forall exactly_one_equals parameter)
  ∧ ∀ good bad rest,
      parameter = good ++ bad :: rest →
      Forall exactly_one_equals good →
      ¬ exactly_one_equals bad →
      dict_of_pairs (map (Str.split "=") parameter)
      = Raise (ValueError
                 ("dictionary update sequence element #"
                  +:+ pretty (length good)
                  +:+ " has length " +:+ pretty (S (Str.count "=" bad))
                  +:+ "; 2 is required")).
Proof.
  split; [apply parameters_ok_iff|].
  intros good bad rest -> Hgood Hbad.
  by apply parameters_stop_at_first_bad.
Qed.

Lemma parameters_accepted_iff_witness :
  ¬ exactly_one_equals "tag=a=b"
  ∧ dict_of_pairs (map (Str.split "=") ["env=prod"; "tag=a=b"])
    = Raise (ValueError
               "dictionary update sequence element #1 has length 3; 2 is required").
Proof.
  split; [by vm_compute|].
  destruct (parameters_accepted_iff ["env=prod"; "tag=a=b"]) as [_ Hbad].
  apply (Hbad ["env=prod"] "tag=a=b" []).
  - reflexivity.
  - repeat constructor.
  - by vm_compute.
Defined.

(** In the dictionary made from the parameters, a key has the value of the
    last parameter [key=value] given for it, and only the keys given are
    in it. *)
Theorem parameters_last_wins (parameter : list string) d :
  dict_of_pairs (map (Str.split "=") parameter) = Ok d →
  ∀ k v,
    dict_get d k = Some v
    ↔ ∃ before after,
        parameter = before ++ (k +:+ String "=" v) :: after
        ∧ Str.contains "=" k = false ∧ Str.contains "=" v = false
        ∧ Forall (λ p, ∀ v', p ≠ k +:+ String "=" v') after.
Proof.
  intros Hd.
  assert (Hall : Forall exactly_one_equals parameter).
  { apply parameters_ok_iff. by rewrite Hd. }
  destruct (parameters_as_pairs parameter Hall) as (pairs & H1 & H2 & H3).
  unfold dict_of_pairs in Hd. rewrite H1, dict_update_pairs in Hd.
  simplify_eq. clear Hall.
  assert (Hpairs : Forall (λ e, Str.split "=" (e.1 +:+ String "=" e.2)
                                = [e.1; e.2]) pairs).
  { apply Forall_forall. intros e He.
    apply list_elem_of_lookup in He as [n Hn].
    apply (f_equal (λ l, l !! n)) in H1.
    rewrite !list_lookup_fmap, Hn in H1. simpl in H1. by simplify_eq. }
  intros k v. rewrite assignments_last. split.
  - intros [(b & a & -> & Ha)|[? _]]; [|done].
    exists (map (λ e, e.1 +:+ String "=" e.2) b),
           (map (λ e, e.1 +:+ String "=" e.2) a).
    rewrite map_app. split; [done|].
    apply Forall_app in Hpairs as [_ Hpairs].
    apply Forall_cons in Hpairs as [Hkv Hpairs]. simpl in Hkv.
    apply split_two in Hkv as (_ & Hk & Hv). do 2 (split; [done|]).
    apply Forall_map. rewrite Forall_forall in Hpairs. apply Forall_forall.
    intros [k' v'] Hin v'' Heq. simpl in Heq.
    pose proof (Hpairs _ Hin) as Hs. simpl in Hs. rewrite Heq in Hs.
    apply split_two in Hs as (Hj & Hk' & Hv').
    assert (Hs' : Str.split "=" (k' +:+ String "=" v') = [k'; v'])
      by by apply split_two.
    rewrite <- Hj in Hs'.
    assert (Hv'' : Str.contains "=" v'' = false).
    { pose proof (split_length "=" (k +:+ String "=" v'')) as Hl.
      rewrite Hs' in Hl. simpl in Hl. clear -Hl Hk.
      induction k as [|c k IH]; simpl in *.
      - assert (H0 : Str.count "=" v'' = 0) by lia. clear Hl.
        induction v'' as [|c w IHw]; simpl in *; [done|].
        destruct (Ascii.eqb c "="); simpl in *; [lia|]. by apply IHw.
      - apply orb_false_elim in Hk as [Hc Hk]. rewrite Hc in Hl.
        by apply IH. }
    assert (Hs'' : Str.split "=" (k +:+ String "=" v'') = [k; v''])
      by by apply split_two.
    rewrite Hs'' in Hs'. simplify_eq. apply Ha.
    apply list_elem_of_fmap. by exists (k', v').
  - intros (before & after & Heq & Hk & Hv & Hafter). left.
    assert (∃ b a, pairs = b ++ (k, v) :: a
                   ∧ after = map (λ e, e.1 +:+ String "=" e.2) a)
      as (b & a & -> & ->).
    { clear -Heq Hpairs Hk Hv. revert pairs Heq Hpairs.
      induction before as [|p before IH]; intros pairs Heq Hpairs.
      - destruct pairs as [|[k0 v0] pairs]; [done|]. simpl in Heq.
        injection Heq as Heq Hrest. apply Forall_cons in Hpairs as [Hs _].
        simpl in Hs. rewrite Heq in Hs.
        assert (H : Str.split "=" (k +:+ String "=" v) = [k; v])
          by by apply split_two.
        rewrite H in Hs. injection Hs as <- <-. by exists [], pairs.
      - destruct pairs as [|e pairs]; [done|]. simpl in Heq.
        injection Heq as _ Heq. apply Forall_cons in Hpairs as [_ Hpairs].
        destruct (IH pairs Heq Hpairs) as (b & a & -> & ->).
        by exists (e :: b), a. }
    exists b, a. split; [done|]. intros Hin.
    apply list_elem_of_fmap in Hin as ([k0 v0] & Hk0 & Hin). simpl in Hk0.
    subst k0. rewrite Forall_forall in Hafter.
    apply (Hafter (k +:+ String "=" v0)) with v0; [|done].
    apply list_elem_of_fmap. by exists (k, v0).
Qed.

Lemma parameters_last_wins_witness :
  dict_of_pairs (map (Str.split "=") ["env=dev"; "tag=x"; "env=prod"])
  = Ok [("env", "prod"); ("tag", "x")]
  ∧ dict_get [("env", "prod"); ("tag", "x")] "env" = Some "prod".
Proof.
  split; [reflexivity|].
  apply (parameters_last_wins ["env=dev"; "tag=x"; "env=prod"]
           [("env", "prod"); ("tag", "x")] eq_refl "env" "prod").
  exists ["env=dev"; "tag=x"], []. repeat split; constructor.
Defined.

(** ** The commands *)

(** A parameter that does not contain exactly one [=] stops either command
    with the [ValueError] of the dictionary construction before anything
    else happens: no file is read, no remote call is made, nothing is
    printed or written. *)
Theorem bad_parameter_stops_the_command rt boto h resolve_ bound
    minify output_file parameter path_to_document (p : process h) :
  ¬ Forall exactly_one_equals parameter →
  ∃ msg,
    cli.run rt h minify output_file parameter path_to_document p
    = (Raise (ValueError msg), p)
    ∧ main.cli rt boto h resolve_ bound minify output_file parameter
        path_to_document p
      = (Raise (ValueError msg), p).
Proof.
  intros Hbad. unfold cli.run, main.cli, mbind, IO_bind, io_lift.
  destruct (first_bad_parameter parameter Hbad)
    as (good & bad & rest & -> & Hg & Hb).
  rewrite (parameters_stop_at_first_bad good bad rest Hg Hb). eauto.
Qed.

Lemma bad_parameter_stops_the_command_witness :
  ¬ Forall exactly_one_equals ["verbose"]
  ∧ ∃ msg,
      cli.run Example.rt Desk.host true None ["verbose"] "template.json"
        Desk.start
      = (Raise (ValueError msg), Desk.start).
Proof.
  assert (Hbad : ¬ Forall exactly_one_equals ["verbose"]).
  { intros H. apply Forall_cons in H as [H _]. by vm_compute in H. }
  split; [exact Hbad|].
  destruct (bad_parameter_stops_the_command Example.rt Desk.boto Desk.host
              (λ document _ _, Ok document) main.module_globals true None
              ["verbose"] "template.json" Desk.start Hbad)
    as (msg & Hrun & _).
  by exists msg.
Defined.

(** What [run] of [cli.py] puts out.  Either the run raises with nothing
    printed and the files untouched; or the parameters made a dictionary,
    the document was read and decoded, the resolution returned a tree and
    the tree was serialized (with indentation 4 unless [minify]), and then
    the text goes to exactly one place: it is printed when no output file
    is given, and otherwise the output file is opened for writing and the
    text written to it, nothing being printed. *)
Theorem run_output rt h minify output_file parameter path_to_document
    (p : process h) :
  let r := cli.run rt h minify output_file parameter path_to_document p in
  (is_ok r.1 = false ∧ stdout r.2 = stdout p ∧ disk r.2 = disk p)
  ∨ ∃ params data document tree text,
      dict_of_pairs (map (Str.split "=") parameter) = Ok params
      ∧ read_file h path_to_document (disk p) = Ok data
      ∧ json_load h data = Ok document
      ∧ (cli.resolve_template_with_cfn_support rt h document params
           (module_state p)).1 = Ok tree
      ∧ json_dumps h tree (if minify then None else Some 4) = Ok text
      ∧ module_state r.2
        = (cli.resolve_template_with_cfn_support rt h document params
             (module_state p)).2
      ∧ match output_file with
        | None =>
            r.1 = Ok tt ∧ stdout r.2 = stdout p ++ [text]
            ∧ disk r.2 = disk p
        | Some file =>
            stdout r.2 = stdout p
            ∧ (r.1, disk r.2)
              = match open_w h file (disk p) with
                | (Ok _, opened) => write h file text opened
                | (Raise e, opened) => (Raise e, opened)
                end
        end.
Proof.
  intros r. subst r. unfold cli.run, mbind, IO_bind, io_lift, open_r.
  destruct (dict_of_pairs _) as [params|e]; [|left; simpl; done].
  destruct (read_file h path_to_document (disk p)) as [data|e];
    [|left; simpl; done].
  destruct (json_load h data) as [document|e] eqn:Hjson; [|left; simpl; done].
  unfold in_module.
  destruct (cli.resolve_template_with_cfn_support rt h document params
              (module_state p)) as [[tree|e] s'] eqn:Hres;
    [|left; simpl; done].
  destruct (json_dumps h tree _) as [text|e] eqn:Hdumps; [|left; simpl; done].
  right. exists params, data, document, tree, text.
  do 2 (split; [done|]). split; [exact Hjson|]. rewrite Hres.
  do 2 (split; [done|]). destruct output_file as [file|]; simpl.
  - unfold on_disk. simpl.
    destruct (open_w h file (disk p)) as [[[]|e] opened]; simpl; [|done].
    destruct (write h file text opened) as [r2 written]. simpl. done.
  - done.
Qed.

(** [cli] of [main.py] never puts anything out.  It hands the decoded
    document to [resolve_template_with_cfn_support], which applies
    [json.load] to it once more; a decoded document cannot be read, so
    whenever the parameters, the file and its decoding are in order the
    command raises [AttributeError], and in every case it raises with the
    process state unchanged. *)
Theorem main_cli_never_outputs rt boto h resolve_ bound minify output_file
    parameter path_to_document (p : process h) :
  let r := main.cli rt boto h resolve_ bound minify output_file parameter
             path_to_document p in
  is_ok r.1 = false
  ∧ r.2 = p
  ∧ ∀ params data document,
      dict_of_pairs (map (Str.split "=") parameter) = Ok params →
      read_file h path_to_document (disk p) = Ok data →
      json_load h data = Ok document →
      r.1 = Raise (AttributeError "read").
Proof.
  intros r. subst r. unfold main.cli, mbind, IO_bind, io_lift, open_r.
  destruct (dict_of_pairs _) as [params|e];
    [|by repeat split; intros; simplify_eq].
  destruct (read_file h path_to_document (disk p)) as [data|e];
    [|by repeat split; intros; simplify_eq].
  destruct (json_load h data) as [document|e] eqn:Hjson;
    [|by repeat split; intros; simplify_eq; congruence].
  simpl. done.
Qed.

(** The two commands on a template without directives: [run] prints it,
    [cli] of [main.py] raises. *)
Example commands_on_plain_template :
  let r := cli.run Example.rt Desk.host true None ["env=prod"]
             "template.json" Desk.start in
  let r' := main.cli Example.rt Desk.boto Desk.host
              (λ document _ _, Ok document) main.module_globals true None
              ["env=prod"] "template.json" Desk.start in
  r.1 = Ok tt ∧ stdout r.2 = ["{}"]
  ∧ r'.1 = Raise (AttributeError "read") ∧ stdout r'.2 = [].
Proof. vm_compute. done. Qed.

(** ** Where resolved values come from *)

(** Whatever a resolver call returns was read from the index of the stack
    it was asked about, which is in the cache when the call returns: a
    scalar is the value of a key of that index, and a sequence is not empty
    and consists of values of keys of that index. *)
Theorem resolved_values_come_from_the_index rt name path s v :
  (cli.retrieve_attribute rt name path s).1 = Ok v →
  ∃ stack,
    STACK_LOOKUP (cli.retrieve_attribute rt name path s).2 !! name
    = Some stack
    ∧ match v with
      | Scalar x => ∃ k, dict_get stack k = Some x
      | Sequence ids =>
          ids ≠ [] ∧ Forall (λ x, ∃ k, dict_get stack k = Some x) ids
      end.
Proof.
  assert (Hlookup : ∀ stack q,
            cli.lookup rt name stack q = Ok v →
            match v with
            | Scalar x => ∃ k, dict_get stack k = Some x
            | Sequence ids =>
                ids ≠ [] ∧ Forall (λ x, ∃ k, dict_get stack k = Some x) ids
            end).
  { intros stack q. destruct (cli.has_wildcards q) eqn:Hw.
    - destruct (lookup_glob rt name stack q Hw) as (ids & Hall & ->).
      destruct ids as [|x ids]; [done|]. intros [= <-]. split; [done|].
      clear -Hall. induction Hall as [|k y ks ys Hk _ IH]; constructor; eauto.
    - rewrite lookup_exact by done.
      destruct (dict_get stack q) as [x|] eqn:Hq; [|done].
      intros [= <-]. eauto. }
  destruct (STACK_LOOKUP s !! name) as [stack|] eqn:Hc.
  - rewrite (retrieve_cached rt name path s stack Hc). simpl.
    intros H. exists stack. split; [done|]. by apply (Hlookup stack path).
  - rewrite retrieve_uncached by done. simpl.
    destruct (paged_ids _ _) as [ids|e]; [|done].
    destruct (indexed rt _ _ _ _) as [[stack q]|e]; [|done]. simpl.
    intros H. exists stack. split; [apply lookup_insert_eq|].
    by apply (Hlookup stack q).
Qed.

Lemma resolved_values_come_from_the_index_witness :
  (cli.retrieve_attribute Example.rt "Stack" "Stack/*" Example.warm).1
  = Ok (Sequence ["id1"; "id2"])
  ∧ ∃ stack,
      STACK_LOOKUP
        (cli.retrieve_attribute Example.rt "Stack" "Stack/*" Example.warm).2
        !! "Stack" = Some stack
      ∧ Forall (λ x, ∃ k, dict_get stack k = Some x) ["id1"; "id2"].
Proof.
  split; [reflexivity|].
  destruct (resolved_values_come_from_the_index Example.rt "Stack" "Stack/*"
              Example.warm (Sequence ["id1"; "id2"]) eq_refl)
    as (stack & Hstack & _ & Hall).
  by exists stack.
Defined.
